(** * Galois sample applications: maximal independent set and distributed BFS

    A shallow embedding of
      - [apps/independentset/IndependentSet.cpp] (module [MIS]) and
      - [exp/apps/compiler_outputs/bfs_push-filter/gen.cpp] (module [BFS]),
    together with the properties of their operators, verifier and
    round loop.

    Conventions.  A [GNode] is the index of a vertex in the node-data array
    of the graph.  C++ [unsigned int] values are integers of [Z] and every
    wrap-around is written out with [uint].  Node data lives in a [list]
    that is read with [!!!] and written with [<[_:=_]>]; the sources index
    the array without bounds checks (an out-of-range [GNode] is undefined
    behaviour there), so the statements below are about vertices of the
    graph, [v < size g]. *)

From stdpp Require Import base decidable numbers option list.

(** ** Maximal independent set (IndependentSet.cpp) *)

Module MIS.

(** [enum MatchFlag]. *)
Inductive MatchFlag : Type :=
  | UNMATCHED
  | OTHER_MATCHED
  | MATCHED.

#[global] Instance MatchFlag_eq_dec : EqDecision MatchFlag.
Proof. solve_decision. Defined.

(** [struct Node]; the constructor sets both flags to [UNMATCHED]. *)
Record Node : Type := mkNode {
  id : Z;
  flag : MatchFlag;
  pendingFlag : MatchFlag
}.

#[global] Instance Node_inhabited : Inhabited Node :=
  populate (mkNode 0 UNMATCHED UNMATCHED).

Definition GNode : Type := nat.

(** Modelled from the spec: the graph substrate ([LC_CSR_Graph<Node,void>]
    of Galois/Graphs/LCGraph.h is not part of the sources).  Topology is
    fixed; [edgeDst g !!! n] lists the destinations of the edges of [n] in
    CSR order, i.e. what the loop from [edge_begin(n)] to [edge_end(n)]
    visits through [getEdgeDst]. *)
Record Graph : Type := mkGraph {
  nodeData : list Node;
  edgeDst : list (list GNode)
}.

Definition size (g : Graph) : nat := length (nodeData g).

(** [graph.begin() .. graph.end()]. *)
Definition all_nodes (g : Graph) : list GNode := seq 0 (size g).

Definition edges (g : Graph) (n : GNode) : list GNode := edgeDst g !!! n.

(** [graph.getData(n)], the method flag plays no role in serial code. *)
Definition getData (g : Graph) (n : GNode) : Node := nodeData g !!! n.

(** Writing the [flag] field through a [Node&]. *)
Definition with_flag (f : MatchFlag) (d : Node) : Node :=
  {| id := id d; flag := f; pendingFlag := pendingFlag d |}.

Definition set_flag (g : Graph) (n : GNode) (f : MatchFlag) : Graph :=
  {| nodeData := <[n := with_flag f (getData g n)]> (nodeData g);
     edgeDst := edgeDst g |}.

(** The edge loop of [Process::build]: the first [MATCHED] neighbour makes
    it return false. *)
Fixpoint build_loop (g : Graph) (es : list GNode) : bool :=
  match es with
  | [] => true
  | dst :: es' =>
      if decide (flag (getData g dst) = MATCHED) then false
      else build_loop g es'
  end.

(** [Process::build]. *)
Definition build (g : Graph) (src : GNode) : bool :=
  if decide (flag (getData g src) ≠ UNMATCHED) then false
  else build_loop g (edges g src).

(** The edge loop of [Process::modify]: [data.flag = OTHER_MATCHED]. *)
Fixpoint modify_loop (g : Graph) (es : list GNode) : Graph :=
  match es with
  | [] => g
  | dst :: es' => modify_loop (set_flag g dst OTHER_MATCHED) es'
  end.

(** [Process::modify]. *)
Definition modify (g : Graph) (src : GNode) : Graph :=
  set_flag (modify_loop g (edges g src)) src MATCHED.

(** The serial operator, [Process::operator()(GNode src)]. *)
Definition Process (g : Graph) (src : GNode) : Graph :=
  if build g src then modify g src else g.

(** [SerialAlgo]: [std::for_each(graph.begin(), graph.end(), Process<>())]. *)
Definition SerialAlgo (g : Graph) : Graph :=
  fold_left Process (all_nodes g) g.

(** The first loop of [is_bad], for a [MATCHED] vertex [n]. *)
Fixpoint double_match (g : Graph) (n : GNode) (es : list GNode) : bool :=
  match es with
  | [] => false
  | dst :: es' =>
      if bool_decide (dst ≠ n) && bool_decide (flag (getData g dst) = MATCHED)
      then true
      else double_match g n es'
  end.

(** The second loop of [is_bad], for an [UNMATCHED] vertex; [ok] is the
    local variable of that name. *)
Fixpoint some_neighbour_done (g : Graph) (es : list GNode) (ok : bool) : bool :=
  match es with
  | [] => ok
  | dst :: es' =>
      some_neighbour_done g es'
        (if decide (flag (getData g dst) ≠ UNMATCHED) then true else ok)
  end.

(** [is_bad::operator()]. *)
Definition is_bad (g : Graph) (n : GNode) : bool :=
  match flag (getData g n) with
  | MATCHED => double_match g n (edges g n)
  | UNMATCHED => negb (some_neighbour_done g (edges g n) false)
  | OTHER_MATCHED => false
  end.

(** [is_matched::operator()]. *)
Definition is_matched (g : Graph) (n : GNode) : bool :=
  bool_decide (flag (getData g n) = MATCHED).

(** [Galois::find_if] over a range: the first element satisfying the
    predicate, [None] standing for the end iterator. *)
Fixpoint find_if (p : GNode → bool) (l : list GNode) : option GNode :=
  match l with
  | [] => None
  | n :: l' => if p n then Some n else find_if p l'
  end.

(** [verify()]. *)
Definition verify (g : Graph) : bool :=
  match find_if (is_bad g) (all_nodes g) with
  | None => true
  | Some _ => false
  end.

(** [Galois::count_if(graph.begin(), graph.end(), is_matched())], the
    cardinality printed by [main]. *)
Definition cardinality (g : Graph) : nat :=
  length (filter (λ n, is_matched g n = true) (all_nodes g)).

(** The flags of all vertices, in vertex order. *)
Definition flags (g : Graph) : list MatchFlag := flag <$> nodeData g.

(** The undirected path 0 - 1 - 2 - 3 - 4, every edge stored in both
    directions, as [main] leaves it before the algorithm runs: ids
    assigned in order and all flags [UNMATCHED]. *)
Definition path5 : Graph :=
  {| nodeData := (λ i, mkNode i UNMATCHED UNMATCHED) <$> [0; 1; 2; 3; 4]%Z;
     edgeDst := [[1]; [0; 2]; [1; 3]; [2; 4]; [3]] |}.

(** A single [MATCHED] vertex with an edge to itself. *)
Definition self_loop : Graph :=
  {| nodeData := [mkNode 0 MATCHED UNMATCHED]; edgeDst := [[0]] |}.

(** The same graph before the algorithm runs. *)
Definition self_loop_init : Graph :=
  {| nodeData := [mkNode 0 UNMATCHED UNMATCHED]; edgeDst := [[0]] |}.

(** The verification predicate in the words of the specification:
    independence of [MATCHED] vertices and a non-[UNMATCHED] neighbour for
    every [UNMATCHED] vertex. *)
Definition independent_as_stated (g : Graph) (v : GNode) : Prop :=
  flag (getData g v) = MATCHED →
  ∀ t, t ∈ edges g v → flag (getData g t) ≠ MATCHED.

Definition independent (g : Graph) (v : GNode) : Prop :=
  flag (getData g v) = MATCHED →
  ∀ t, t ∈ edges g v → t ≠ v → flag (getData g t) ≠ MATCHED.

Definition maximal (g : Graph) (v : GNode) : Prop :=
  flag (getData g v) = UNMATCHED →
  ∃ t, t ∈ edges g v ∧ flag (getData g t) ≠ UNMATCHED.

(** *** The operator under the parallel executor *)

(** [enum DetAlgo], the [Version] parameter of [Process]. *)
Inductive DetAlgo : Type :=
  | nondet
  | detBase
  | detPrefix
  | detDisjoint.

#[global] Instance DetAlgo_eq_dec : EqDecision DetAlgo.
Proof. solve_decision. Defined.

(** [Process::LocalState]; its constructor sets [mod] to false ([mod] is
    reserved here, hence [mod_] and [mod']). *)
Record LocalState : Type := mkLocalState { mod_ : bool }.

(** Modelled from the spec: [ctx.getLocalState(used)] ([Galois::UserContext]
    is not part of the sources).  The slot of the current item is empty
    before the first invocation for the item, when a fresh [LocalState] is
    made and [used] is false; on a retry the saved state comes back and
    [used] is true. *)
Definition getLocalState (slot : option LocalState) : LocalState * bool :=
  match slot with
  | None => (mkLocalState false, false)
  | Some ls => (ls, true)
  end.

(** [Process::operator()(GNode src, Galois::UserContext<GNode>& ctx)] in
    an iteration that the executor does not abort: the accesses with
    [Galois::ALL] and the fail-safe [getData(src, Galois::WRITE)] then
    acquire silently.  [use_det] tells whether [GALOIS_USE_DET] is
    defined; the result is the graph and the item's local-state slot. *)
Definition Process_ctx (use_det : bool) (Version : DetAlgo)
    (g : Graph) (src : GNode) (slot : option LocalState)
    : Graph * option LocalState :=
  if use_det && bool_decide (Version = detDisjoint) then
    let '(localState, used) := getLocalState slot in
    if used then
      ((if mod_ localState then modify g src else g), Some localState)
    else
      (g, Some (mkLocalState (build g src)))
  else if bool_decide (Version = detDisjoint) then
    (g, slot)
  else
    let mod' := build g src in
    if bool_decide (Version = detPrefix) then (g, slot)
    else ((if mod' then modify g src else g), slot).

(** *** Notions used to state what the algorithm computes *)

(** Every edge ends at a vertex of the graph. *)
Definition wf_edges (g : Graph) : Prop := ∀ s t, t ∈ edges g s → t < size g.

(** Edges are stored in both directions. *)
Definition symmetric (g : Graph) : Prop := ∀ u v, v ∈ edges g u → u ∈ edges g v.

(** The state [main] hands to the algorithm. *)
Definition all_unmatched (g : Graph) : Prop :=
  ∀ v, v < size g → flag (getData g v) = UNMATCHED.

(** What every application of the operator keeps true: the other
    neighbours of a [MATCHED] vertex are [OTHER_MATCHED], and an
    [OTHER_MATCHED] vertex is a neighbour of a [MATCHED] one. *)
Definition mis_inv (g : Graph) : Prop :=
  (∀ v t, v < size g → flag (getData g v) = MATCHED →
     t ∈ edges g v → t ≠ v → flag (getData g t) = OTHER_MATCHED) ∧
  (∀ v, v < size g → flag (getData g v) = OTHER_MATCHED →
     ∃ u, u < size g ∧ v ∈ edges g u ∧ u ≠ v ∧ flag (getData g u) = MATCHED).

(** Vertex [v] needs no further visit: it is decided, or blocked by a
    [MATCHED] neighbour. *)
Definition settled (g : Graph) (v : GNode) : Prop :=
  flag (getData g v) ≠ UNMATCHED ∨
  ∃ t, t ∈ edges g v ∧ flag (getData g t) = MATCHED.

End MIS.

(** ** Distributed BFS (bfs_push-filter/gen.cpp), CPU personality *)

Module BFS.

(** [std::numeric_limits<unsigned int>::max()] for a 32-bit [unsigned int]. *)
Definition UINT_MAX : Z := (2 ^ 32 - 1)%Z.

(** The value an integer takes when stored in an [unsigned int]. *)
Definition uint (z : Z) : Z := (z `mod` 2 ^ 32)%Z.

(** [const unsigned int infinity = std::numeric_limits<unsigned int>::max()/4]. *)
Definition infinity : Z := (UINT_MAX `div` 4)%Z.

(** [struct NodeData]. *)
Record NodeData : Type := mkNodeData {
  dist_current : Z;
  dist_old : Z
}.

#[global] Instance NodeData_inhabited : Inhabited NodeData :=
  populate (mkNodeData 0 0).

Definition GNode : Type := nat.

(** The command-line options read by this program. *)
Record Options : Type := mkOptions {
  maxIterations : Z;
  src_node : Z
}.

(** Modelled from the spec: one host's share of the partitioned graph
    ([hGraph<NodeData,void>] of Galois/Runtime/hGraph.h is not part of the
    sources) together with the host's static [BFS::DGAccumulator_accum]
    ([Galois::DGAccumulator<int>] of Galois/DistAccumulator.h, an integer
    counter with [+=], [reset()] and [reduce()]; it is an unbounded integer
    here, an [int] would need 2^31 activations in one round to overflow).
    Local vertices
    [0 .. numOwned-1] are the masters, the range of [begin() .. end()]; the
    vertices from [numOwned] on are mirrors of masters of other hosts.
    [globalID] is [getGID] and [edgeDst] the CSR adjacency. *)
Record Host : Type := mkHost {
  nodeData : list NodeData;
  edgeDst : list (list GNode);
  numOwned : nat;
  globalID : list Z;
  DGAccumulator_accum : Z
}.

Definition size (h : Host) : nat := length (nodeData h).
Definition masters (h : Host) : list GNode := seq 0 (numOwned h).
Definition mirrors (h : Host) : list GNode :=
  seq (numOwned h) (size h - numOwned h).
Definition edges (h : Host) (n : GNode) : list GNode := edgeDst h !!! n.
Definition getGID (h : Host) (n : GNode) : Z := globalID h !!! n.
Definition getData (h : Host) (n : GNode) : NodeData := nodeData h !!! n.

(** Storing through the [NodeData&] returned by [getData]. *)
Definition setData (h : Host) (n : GNode) (d : NodeData) : Host :=
  {| nodeData := <[n := d]> (nodeData h);
     edgeDst := edgeDst h;
     numOwned := numOwned h;
     globalID := globalID h;
     DGAccumulator_accum := DGAccumulator_accum h |}.

Definition with_dist_current (y : Z) (d : NodeData) : NodeData :=
  {| dist_current := y; dist_old := dist_old d |}.

Definition with_dist_old (y : Z) (d : NodeData) : NodeData :=
  {| dist_current := dist_current d; dist_old := y |}.

(** [DGAccumulator_accum += 1] and [DGAccumulator_accum.reset()]. *)
Definition accum_add (h : Host) (k : Z) : Host :=
  {| nodeData := nodeData h;
     edgeDst := edgeDst h;
     numOwned := numOwned h;
     globalID := globalID h;
     DGAccumulator_accum := (DGAccumulator_accum h + k)%Z |}.

Definition accum_reset (h : Host) : Host :=
  {| nodeData := nodeData h;
     edgeDst := edgeDst h;
     numOwned := numOwned h;
     globalID := globalID h;
     DGAccumulator_accum := 0 |}.

(** *** Operators *)

(** [InitializeGraph::operator()]. *)
Definition InitializeGraph_operator (o : Options) (h : Host) (src : GNode) : Host :=
  let init := (if decide (getGID h src = src_node o) then 0 else infinity)%Z in
  setData h src {| dist_current := init; dist_old := init |}.

(** [unsigned int new_dist = 1 + snode.dist_current], evaluated on the
    current node data. *)
Definition new_dist (h : Host) (src : GNode) : Z :=
  uint (1 + dist_current (getData h src))%Z.

(** Modelled from the spec: [Galois::atomicMin(a, b)] leaves [min(a, b)] in
    the atomic [a]. *)
Definition atomicMin (a b : Z) : Z := Z.min a b.

(** One turn of the edge loop shared by both BFS operators. *)
Definition relax (h : Host) (src dst : GNode) : Host :=
  let dnode := getData h dst in
  setData h dst
    (with_dist_current (atomicMin (dist_current dnode) (new_dist h src)) dnode).

Fixpoint relax_edges (h : Host) (src : GNode) (es : list GNode) : Host :=
  match es with
  | [] => h
  | dst :: es' => relax_edges (relax h src dst) src es'
  end.

(** [snode.dist_old = snode.dist_current]. *)
Definition update_dist_old (h : Host) (src : GNode) : Host :=
  let snode := getData h src in
  setData h src (with_dist_old (dist_current snode) snode).

(** [FirstItr_BFS::operator()]. *)
Definition FirstItr_BFS_operator (h : Host) (src : GNode) : Host :=
  let h1 := update_dist_old h src in
  relax_edges h1 src (edges h1 src).

(** [BFS::operator()]. *)
Definition BFS_operator (h : Host) (src : GNode) : Host :=
  let snode := getData h src in
  if decide (dist_old snode > dist_current snode)%Z then
    let h1 := update_dist_old h src in
    let h2 := accum_add h1 1 in
    relax_edges h2 src (edges h2 src)
  else h.

(** [Galois::do_all(_graph.begin(), _graph.end(), op)] on one host, in the
    schedule that visits the masters in iterator order. *)
Definition do_all (op : Host → GNode → Host) (h : Host) : Host :=
  fold_left op (masters h) h.

(** *** Synchronisation *)

(** The synchroniser descriptors handed to [sync_push] and [sync_pull].
    On the CPU the batch variants return false, which selects the scalar
    callbacks below. *)
Record Syncer : Type := mkSyncer {
  extract : GNode → NodeData → Z;
  reduce : GNode → NodeData → Z → NodeData;
  reset : GNode → NodeData → NodeData
}.

Record SyncerPull : Type := mkSyncerPull {
  pull_extract : GNode → NodeData → Z;
  setVal : GNode → NodeData → Z → NodeData
}.

(** [Syncer_0] of [FirstItr_BFS::go] and of [BFS::go] (the two are
    identical).  [Galois::min(node.dist_current, y)], whose header is not
    part of the sources, is the reduction [min] of the spec: it stores the
    minimum in [node.dist_current]. *)
Definition Syncer_0 : Syncer :=
  {| extract := λ _ node, dist_current node;
     reduce := λ _ node y, with_dist_current (Z.min (dist_current node) y) node;
     reset := λ _ node, with_dist_current UINT_MAX node |}.

(** [SyncerPull_0]. *)
Definition SyncerPull_0 : SyncerPull :=
  {| pull_extract := λ _ node, dist_current node;
     setVal := λ _ node y, with_dist_current y node |}.

(** The hosts of the run, indexed by host id. *)
Abbreviation System := (list Host).

(** The local id under which host [h] owns the vertex with global id [G]. *)
Definition master_lid (h : Host) (G : Z) : option GNode :=
  fst <$> list_find (λ x, x = G) (take (numOwned h) (globalID h)).

(** Modelled from the spec: [sync_push] (hGraph.h is not part of the
    sources).  Every host extracts the value of each of its mirrors and
    resets the mirror; the values travel to the hosts owning the masters,
    which apply [reduce]. *)
Definition push_messages (sy : Syncer) (h : Host) : list (Z * Z) :=
  (λ lid, (getGID h lid, extract sy lid (getData h lid))) <$> mirrors h.

Definition reset_mirrors (sy : Syncer) (h : Host) : Host :=
  fold_left (λ h' lid, setData h' lid (reset sy lid (getData h' lid)))
    (mirrors h) h.

Definition apply_reduce (sy : Syncer) (msg : Z * Z) (h : Host) : Host :=
  match master_lid h msg.1 with
  | Some l => setData h l (reduce sy l (getData h l) msg.2)
  | None => h
  end.

Definition sync_push (sy : Syncer) (sys : System) : System :=
  fold_left (λ sys' msg, apply_reduce sy msg <$> sys')
    (sys ≫= push_messages sy) (reset_mirrors sy <$> sys).

(** Modelled from the spec: [sync_pull].  Every master's value is shipped
    to the hosts that mirror it, which call [setVal]. *)
Fixpoint master_value (P : SyncerPull) (sys : System) (G : Z) : option Z :=
  match sys with
  | [] => None
  | h :: sys' =>
      match master_lid h G with
      | Some l => Some (pull_extract P l (getData h l))
      | None => master_value P sys' G
      end
  end.

Definition pull_mirror (P : SyncerPull) (sys : System) (h : Host) (lid : GNode) : Host :=
  match master_value P sys (getGID h lid) with
  | Some y => setData h lid (setVal P lid (getData h lid) y)
  | None => h
  end.

Definition sync_pull (P : SyncerPull) (sys : System) : System :=
  (λ h, fold_left (pull_mirror P sys) (mirrors h) h) <$> sys.

(** Modelled from the spec: [DGAccumulator::reduce()], the all-reduce with
    sum over the hosts' counters. *)
Definition accum_reduce (sys : System) : Z :=
  foldr Z.add 0%Z (DGAccumulator_accum <$> sys).

(** *** The driver *)

(** [InitializeGraph::go]. *)
Definition InitializeGraph_go (o : Options) (sys : System) : System :=
  sync_pull SyncerPull_0 (do_all (InitializeGraph_operator o) <$> sys).

(** [FirstItr_BFS::go], the bootstrap. *)
Definition FirstItr_BFS_go (sys : System) : System :=
  sync_pull SyncerPull_0
    (sync_push Syncer_0 (do_all FirstItr_BFS_operator <$> sys)).

(** The body of the [do { ... } while] loop of [BFS::go]: every host resets
    its accumulator and runs the operator over its masters, then the hosts
    synchronise. *)
Definition BFS_round (sys : System) : System :=
  sync_pull SyncerPull_0
    (sync_push Syncer_0 ((λ h, do_all BFS_operator (accum_reset h)) <$> sys)).

(** The [do { ... } while (DGAccumulator_accum.reduce())] loop.  [fuel]
    bounds the number of rounds the model is willing to run; the result is
    the final state and the number of rounds executed, [None] when the
    fuel does not suffice. *)
Fixpoint BFS_loop (fuel : nat) (sys : System) : option (System * nat) :=
  match fuel with
  | O => None
  | S fuel' =>
      let sys' := BFS_round sys in
      if decide (accum_reduce sys' ≠ 0%Z)
      then (λ r, (r.1, S r.2)) <$> BFS_loop fuel' sys'
      else Some (sys', 1)
  end.

(** [BFS::go]. *)
Definition BFS_go (fuel : nat) (sys : System) : option (System * nat) :=
  BFS_loop fuel (FirstItr_BFS_go sys).

(** The part of [main] that computes, for a single run ([numRuns = 1]):
    [maxIterations] is reported as a statistic and read nowhere else. *)
Definition main (o : Options) (fuel : nat) (sys : System) : option (System * nat) :=
  BFS_go fuel (InitializeGraph_go o sys).

(** The state after the bootstrap and [n] rounds. *)
Definition after_rounds (n : nat) (sys : System) : System :=
  Nat.iter n BFS_round (FirstItr_BFS_go sys).

(** What it means for the loop, started in [sys] with [fuel], to end in
    [final] after [k] rounds: round [k] is the first whose all-reduce is 0. *)
Definition loop_post (fuel : nat) (sys final : System) (k : nat) : Prop :=
  1 ≤ k ≤ fuel ∧
  final = Nat.iter k BFS_round sys ∧
  accum_reduce (Nat.iter k BFS_round sys) = 0%Z ∧
  ∀ j, 1 ≤ j < k → accum_reduce (Nat.iter j BFS_round sys) ≠ 0%Z.

(** The [dist_current] values of every host, in local vertex order (what
    [-verify] prints). *)
Definition distances (sys : System) : list (list Z) :=
  (λ h, dist_current <$> nodeData h) <$> sys.

(** *** Well-formed node data and sample inputs *)

Definition uint_range (z : Z) : Prop := (0 ≤ z ≤ UINT_MAX)%Z.

(** Every field of every node holds a value of type [unsigned int]. *)
Definition wf_data (h : Host) : Prop :=
  ∀ v, v < size h →
    uint_range (dist_current (getData h v)) ∧ uint_range (dist_old (getData h v)).

(** Every vertex's [dist_current] is at most the sentinel. *)
Definition bounded (h : Host) : Prop :=
  ∀ v, v < size h → (0 ≤ dist_current (getData h v) ≤ infinity)%Z.

(** A host owning the directed line 2 -> 1 -> 0. *)
Definition line3 : Host :=
  {| nodeData := replicate 3 (mkNodeData 0 0);
     edgeDst := [[]; [0]; [1]];
     numOwned := 3;
     globalID := [0; 1; 2]%Z;
     DGAccumulator_accum := 0 |}.

(** [line3] after [InitializeGraph] with source 2 and the bootstrap. *)
Definition line3_started : Host :=
  {| nodeData := [mkNodeData infinity infinity; mkNodeData 1 infinity;
                  mkNodeData 0 0];
     edgeDst := [[]; [0]; [1]];
     numOwned := 3;
     globalID := [0; 1; 2]%Z;
     DGAccumulator_accum := 0 |}.

(** The line 0 -> 1 -> 2 split over two hosts: host 0 owns the vertices
    0 and 2 (local ids 0 and 1) and mirrors vertex 1 (local id 2), the
    destination of its edge; host 1 owns vertex 1 and mirrors vertex 2. *)
Definition line3_split : System :=
  [ {| nodeData := replicate 3 (mkNodeData 0 0);
       edgeDst := [[2]; []; []];
       numOwned := 2;
       globalID := [0; 2; 1]%Z;
       DGAccumulator_accum := 0 |};
    {| nodeData := replicate 2 (mkNodeData 0 0);
       edgeDst := [[1]; []];
       numOwned := 1;
       globalID := [1; 2]%Z;
       DGAccumulator_accum := 0 |} ].

(** Vertex 0 holds the largest [unsigned int] and has an edge to itself
    followed by an edge to vertex 1. *)
Definition wrap_host : Host :=
  {| nodeData := [mkNodeData UINT_MAX 0; mkNodeData 5 5];
     edgeDst := [[0; 1]; []];
     numOwned := 2;
     globalID := [0; 1]%Z;
     DGAccumulator_accum := 0 |}.

(** Two hosts sharing the edge 0 -> 1: host 0 owns vertex 0 and mirrors
    vertex 1, host 1 owns vertex 1 and mirrors vertex 0. *)
Definition two_hosts : System :=
  [ {| nodeData := [mkNodeData 5 5; mkNodeData 3 0];
       edgeDst := [[1]; []];
       numOwned := 1;
       globalID := [0; 1]%Z;
       DGAccumulator_accum := 0 |};
    {| nodeData := [mkNodeData 7 7; mkNodeData 9 9];
       edgeDst := [[]; []];
       numOwned := 1;
       globalID := [1; 0]%Z;
       DGAccumulator_accum := 0 |} ].

(** *** Notions used to state what a run computes *)

(** Every edge of the host ends at one of its local vertices (the CSR
    arrays of a loaded graph). *)
Definition wf_edges (h : Host) : Prop := ∀ s t, t ∈ edges h s → t < size h.

(** [walk h o v n]: some vertex with the global id [src_node o] reaches [v]
    along [n] edges of [h], every edge leaving a master. *)
Inductive walk (h : Host) (o : Options) : GNode → nat → Prop :=
  | walk_source s :
      s < numOwned h → getGID h s = src_node o → walk h o s 0
  | walk_edge s t n :
      walk h o s n → s < numOwned h → t ∈ edges h s → walk h o t (S n).

(** The sum of the [dist_old] fields of a host. *)
Definition sum_old (h : Host) : Z := foldr Z.add 0%Z (dist_old <$> nodeData h).

(** No vertex has [dist_current] above its [dist_old]. *)
Definition le_old (h : Host) : Prop :=
  ∀ v, v < size h → (dist_current (getData h v) ≤ dist_old (getData h v))%Z.

(** Vertex [s] has pushed its recorded distance along all its edges. *)
Definition relaxed (h : Host) (s : GNode) : Prop :=
  ∀ t, t ∈ edges h s → t < size h →
    (dist_current (getData h t) ≤ dist_old (getData h s) + 1)%Z.

(** No master would be activated by the steady operator. *)
Definition quiescent (h : Host) : Prop :=
  ∀ s, s < numOwned h → (dist_old (getData h s) ≤ dist_current (getData h s))%Z.

(** [h] has the vertices, edges and ids of [h0]. *)
Definition same_topology (h0 h : Host) : Prop :=
  size h = size h0 ∧ edgeDst h = edgeDst h0 ∧
  numOwned h = numOwned h0 ∧ globalID h = globalID h0.

(** Every [dist_current] below the sentinel is the length of a walk from
    the source. *)
Definition sound (h0 : Host) (o : Options) (h : Host) : Prop :=
  ∀ v, v < size h →
    dist_current (getData h v) = infinity ∨
    ∃ n, walk h0 o v n ∧ dist_current (getData h v) = Z.of_nat n.

(** What the operators of a run keep true of a host that started as [h0]:
    the topology, the sentinel as upper bound, [dist_current] at most
    [dist_old], and walks behind the distances. *)
Definition bfs_inv (h0 : Host) (o : Options) (h : Host) : Prop :=
  same_topology h0 h ∧ bounded h ∧ le_old h ∧ sound h0 o h.

(** The masters carrying the source id are at distance 0. *)
Definition sources_zero (h0 : Host) (o : Options) (h : Host) : Prop :=
  ∀ s, s < numOwned h0 → getGID h0 s = src_node o →
    dist_current (getData h s) = 0%Z.

(** The value [InitializeGraph] stores in both fields of vertex [v]. *)
Definition init_value (o : Options) (h : Host) (v : GNode) : Z :=
  if decide (getGID h v = src_node o) then 0%Z else infinity.

End BFS.

(** ** Properties of the maximal independent set operator and verifier *)

Module MISFacts.
Import MIS.

Section Store.
Implicit Types (g : Graph) (n v s t : GNode) (es : list GNode).

Lemma size_set_flag g n f : size (set_flag g n f) = size g.
Proof. unfold size, set_flag; simpl. apply length_insert. Qed.

Lemma getData_set_flag g n f v :
  v < size g →
  getData (set_flag g n f) v =
    if decide (v = n) then with_flag f (getData g v) else getData g v.
Proof.
  intros Hv. unfold getData, set_flag; simpl.
  rewrite list_lookup_total_insert. unfold size in Hv.
  destruct (decide (v = n)) as [->|Hne].
  - rewrite decide_True by done. done.
  - rewrite decide_False by (intros [? _]; congruence). done.
Qed.

Lemma size_modify_loop es : ∀ g, size (modify_loop g es) = size g.
Proof.
  induction es as [|d es IH]; intros g; simpl; [done|].
  by rewrite IH, size_set_flag.
Qed.

Lemma edgeDst_modify_loop es : ∀ g, edgeDst (modify_loop g es) = edgeDst g.
Proof. induction es as [|d es IH]; intros g; simpl; [done|]. by rewrite IH. Qed.

(** The loop of [modify] overwrites the flag of exactly the destinations it
    visits and nothing else. *)
Lemma getData_modify_loop es : ∀ g v,
  v < size g →
  getData (modify_loop g es) v =
    if decide (v ∈ es) then with_flag OTHER_MATCHED (getData g v)
    else getData g v.
Proof.
  induction es as [|d es IH]; intros g v Hv; cbn [modify_loop].
  - rewrite decide_False; [done|]. apply not_elem_of_nil.
  - rewrite IH by (by rewrite size_set_flag).
    rewrite getData_set_flag by done.
    destruct (decide (v = d)) as [->|Hne].
    + rewrite (decide_True (P := d ∈ d :: es)) by (by left).
      case_decide; [|done]. by destruct (getData g d).
    + destruct (decide (v ∈ es)) as [Hin|Hin].
      * rewrite decide_True; [done|]. by right.
      * rewrite decide_False; [done|]. by apply not_elem_of_cons.
Qed.

Lemma build_loop_true g es :
  build_loop g es = true ↔ ∀ t, t ∈ es → flag (getData g t) ≠ MATCHED.
Proof.
  induction es as [|d es IH]; simpl.
  - split; [|done]. intros _ t Ht. by apply elem_of_nil in Ht.
  - case_decide as Hd.
    + split; [done|]. intros H. exfalso. apply (H d); [left|done].
    + rewrite IH. split.
      * intros H t [->|Ht]%elem_of_cons; auto.
      * intros H t Ht. apply H. by right.
Qed.

Lemma build_loop_false g es :
  build_loop g es = false ↔ ∃ t, t ∈ es ∧ flag (getData g t) = MATCHED.
Proof.
  induction es as [|d es IH]; simpl.
  - split; [done|]. intros (t & Ht & _). by apply elem_of_nil in Ht.
  - case_decide as Hd.
    + split; [|done]. intros _. exists d. split; [left|done].
    + rewrite IH. split.
      * intros (t & Ht & Hm). exists t. split; [by right|done].
      * intros (t & [->|Ht]%elem_of_cons & Hm); [done|]. by exists t.
Qed.

Lemma build_true g s :
  build g s = true ↔
  flag (getData g s) = UNMATCHED ∧
  ∀ t, t ∈ edges g s → flag (getData g t) ≠ MATCHED.
Proof.
  unfold build. case_decide as Hs.
  - split; [done|]. by intros [? _].
  - rewrite build_loop_true. split; [by intros ?|by intros [_ ?]].
Qed.

Lemma build_false g s :
  build g s = false ↔
  flag (getData g s) ≠ UNMATCHED ∨
  ∃ t, t ∈ edges g s ∧ flag (getData g t) = MATCHED.
Proof.
  unfold build. case_decide as Hs.
  - split; [by left|done].
  - rewrite build_loop_false. split; [by right|]. by intros [?|?].
Qed.

Lemma size_modify g s : size (modify g s) = size g.
Proof. unfold modify. by rewrite size_set_flag, size_modify_loop. Qed.

Lemma getData_modify g s v :
  v < size g →
  getData (modify g s) v =
    if decide (v = s) then with_flag MATCHED (getData g v)
    else if decide (v ∈ edges g s) then with_flag OTHER_MATCHED (getData g v)
    else getData g v.
Proof.
  intros Hv. unfold modify.
  rewrite getData_set_flag by (by rewrite size_modify_loop).
  rewrite getData_modify_loop by done.
  by repeat case_decide.
Qed.

End Store.

(** *** The serial operator *)

Section Operator.
Implicit Types (g : Graph) (s t v : GNode).

(** Claim C3.  Applied to a vertex [s] of the graph, the serial operator
    changes nothing when [s] is not [UNMATCHED] or some out-neighbour of
    [s] is [MATCHED].  Otherwise no out-neighbour is [MATCHED], every
    out-neighbour gets flag [OTHER_MATCHED] (which is also what "unless
    already MATCHED" yields, no neighbour being [MATCHED]), [s] itself ends
    [MATCHED], and all other node data, the ids, the pending flags and the
    topology stay as they were. *)
Theorem Process_spec g s :
  s < size g →
  let blocked :=
    flag (getData g s) ≠ UNMATCHED ∨
    ∃ t, t ∈ edges g s ∧ flag (getData g t) = MATCHED in
  (blocked → Process g s = g) ∧
  (¬ blocked →
     flag (getData (Process g s) s) = MATCHED ∧
     (∀ t, t < size g → t ∈ edges g s → t ≠ s →
        flag (getData g t) ≠ MATCHED ∧
        flag (getData (Process g s) t) = OTHER_MATCHED ∧
        flag (getData (Process g s) t) =
          if decide (flag (getData g t) = MATCHED) then MATCHED
          else OTHER_MATCHED) ∧
     (∀ v, v < size g → v ≠ s → v ∉ edges g s →
        getData (Process g s) v = getData g v) ∧
     (∀ v, v < size g →
        id (getData (Process g s) v) = id (getData g v) ∧
        pendingFlag (getData (Process g s) v) = pendingFlag (getData g v)) ∧
     size (Process g s) = size g ∧
     edgeDst (Process g s) = edgeDst g).
Proof.
  intros Hs blocked. split.
  - intros Hb. apply build_false in Hb. unfold Process. by rewrite Hb.
  - intros Hnb.
    assert (build g s = true) as Hb.
    { apply not_false_iff_true. by rewrite build_false. }
    unfold Process. rewrite Hb. apply build_true in Hb as [_ Hall].
    split_and!.
    + rewrite getData_modify by done. by rewrite decide_True.
    + intros t Ht Hin Hne. rewrite getData_modify by done.
      rewrite decide_False, decide_True by done. simpl.
      rewrite decide_False by auto. auto.
    + intros v Hv Hne Hnin. rewrite getData_modify by done.
      by rewrite !decide_False.
    + intros v Hv. rewrite getData_modify by done.
      by repeat case_decide.
    + apply size_modify.
    + unfold modify. simpl. apply edgeDst_modify_loop.
Qed.

Lemma Process_spec_witness :
  0 < size path5 ∧
  flag (getData (Process path5 0) 0) = MATCHED ∧
  Process (Process path5 0) 1 = Process path5 0.
Proof.
  assert (0 < size path5) as H0 by (vm_compute; lia).
  assert (1 < size (Process path5 0)) as H1 by (vm_compute; lia).
  split; [exact H0|]. split.
  - apply (Process_spec path5 0 H0). vm_compute. intros [H|(t & Ht & Hm)].
    + by apply H.
    + apply list_elem_of_singleton in Ht. by subst.
  - apply (Process_spec (Process path5 0) 1 H1). left. by vm_compute.
Defined.

(** Claim C9.  The serial operator is idempotent: a second application to
    the same vertex of the graph leaves the state of the first. *)
Theorem Process_idempotent g s :
  s < size g → Process (Process g s) s = Process g s.
Proof.
  intros Hs. unfold Process at 2 3. destruct (build g s) eqn:Hb.
  - unfold Process.
    assert (build (modify g s) s = false) as ->; [|done].
    apply build_false. left. rewrite getData_modify by done.
    by rewrite decide_True.
  - unfold Process. by rewrite Hb.
Qed.

Lemma Process_idempotent_witness :
  2 < size path5 ∧ Process (Process path5 2) 2 = Process path5 2.
Proof.
  assert (2 < size path5) as H2 by (vm_compute; lia).
  split; [exact H2|]. exact (Process_idempotent path5 2 H2).
Defined.

(** Claim C8.  On the path 0 - 1 - 2 - 3 - 4 with all vertices
    [UNMATCHED], the serial algorithm (the operator applied to the
    vertices in ascending order) ends with flags MATCHED, OTHER_MATCHED,
    MATCHED, OTHER_MATCHED, MATCHED, and three vertices are matched. *)
Theorem SerialAlgo_path5 :
  flags (SerialAlgo path5) =
    [MATCHED; OTHER_MATCHED; MATCHED; OTHER_MATCHED; MATCHED] ∧
  cardinality (SerialAlgo path5) = 3.
Proof. split; reflexivity. Qed.

End Operator.

(** *** The verifier *)

Section Verifier.
Implicit Types (g : Graph) (n v t : GNode) (es : list GNode).

Lemma find_if_None (p : GNode → bool) l :
  find_if p l = None ↔ ∀ n, n ∈ l → p n = false.
Proof.
  induction l as [|a l IH]; simpl.
  - split; [|done]. intros _ n Hn. by apply elem_of_nil in Hn.
  - destruct (p a) eqn:Ha.
    + split; [done|]. intros H. rewrite H in Ha; [done|by left].
    + rewrite IH. split.
      * intros H n [->|Hn]%elem_of_cons; auto.
      * intros H n Hn. apply H. by right.
Qed.

Lemma verify_true g :
  verify g = true ↔ ∀ v, v < size g → is_bad g v = false.
Proof.
  unfold verify, all_nodes.
  destruct (find_if (is_bad g) (seq 0 (size g))) as [b|] eqn:Hf.
  - split; [done|]. intros H.
    assert (find_if (is_bad g) (seq 0 (size g)) = None) as Hn; [|congruence].
    apply find_if_None. intros n [_ Hn]%elem_of_seq. apply H. lia.
  - split; [|done]. intros _ v Hv.
    eapply find_if_None; [exact Hf|]. apply elem_of_seq. lia.
Qed.

Lemma double_match_false g n es :
  double_match g n es = false ↔
  ∀ t, t ∈ es → t ≠ n → flag (getData g t) ≠ MATCHED.
Proof.
  induction es as [|d es IH]; simpl.
  - split; [|done]. intros _ t Ht. by apply elem_of_nil in Ht.
  - destruct (bool_decide (d ≠ n) && bool_decide (flag (getData g d) = MATCHED))
      eqn:Hd.
    + apply andb_true_iff in Hd as [Hd1%bool_decide_eq_true Hd2%bool_decide_eq_true].
      split; [done|]. intros H. exfalso. apply (H d); [by left|done..].
    + rewrite IH. apply andb_false_iff in Hd. split.
      * intros H t [->|Ht]%elem_of_cons Hne; [|by apply H].
        destruct Hd as [Hd%bool_decide_eq_false|Hd%bool_decide_eq_false]; done.
      * intros H t Ht. apply H. by right.
Qed.

Lemma some_neighbour_done_true g es : ∀ ok,
  some_neighbour_done g es ok = true ↔
  ok = true ∨ ∃ t, t ∈ es ∧ flag (getData g t) ≠ UNMATCHED.
Proof.
  induction es as [|d es IH]; intros ok; simpl.
  - split; [by left|]. intros [?|(t & Ht & _)]; [done|].
    by apply elem_of_nil in Ht.
  - rewrite IH. case_decide as Hd.
    + split; [|by left]. intros _. right. exists d. split; [by left|done].
    + split.
      * intros [?|(t & Ht & Hf)]; [by left|]. right. exists t.
        split; [by right|done].
      * intros [?|(t & [->|Ht]%elem_of_cons & Hf)]; [by left|done|].
        right. by exists t.
Qed.

Lemma is_bad_false g v :
  is_bad g v = false ↔ independent g v ∧ maximal g v.
Proof.
  unfold is_bad, independent, maximal.
  destruct (flag (getData g v)) eqn:Hf.
  - rewrite negb_false_iff, some_neighbour_done_true. split.
    + intros [?|?]; [done|]. split; [done|auto].
    + intros [_ H]. right. by apply H.
  - split; [|done]. intros _. split; done.
  - rewrite double_match_false. split.
    + intros H. split; [auto|done].
    + intros [H _]. by apply H.
Qed.

(** Claim C5 (amended).  [verify()] is true exactly when every vertex [v]
    of the graph satisfies: if [v] is [MATCHED], no neighbour of [v] other
    than [v] itself is [MATCHED]; if [v] is [UNMATCHED], some neighbour of
    [v] is not [UNMATCHED].  A vertex with flag [OTHER_MATCHED] is never
    reported bad. *)
Theorem verify_spec g :
  (verify g = true ↔ ∀ v, v < size g → independent g v ∧ maximal g v) ∧
  (∀ v, flag (getData g v) = OTHER_MATCHED → is_bad g v = false).
Proof.
  split.
  - rewrite verify_true. split; intros H v Hv; apply is_bad_false; auto.
  - intros v Hv. unfold is_bad. by rewrite Hv.
Qed.

(** Claim C5 as stated fails: [is_bad] skips the vertex itself
    ([dst != n]) when it looks for a [MATCHED] neighbour, so a [MATCHED]
    vertex with an edge to itself passes [verify()] although one of its
    neighbours, namely itself, is [MATCHED].  The serial algorithm leaves a
    vertex with a self-loop in exactly this state. *)
Lemma verify_self_loop :
  SerialAlgo self_loop_init = self_loop ∧
  verify self_loop = true ∧
  ¬ (∀ v, v < size self_loop →
       independent_as_stated self_loop v ∧ maximal self_loop v).
Proof.
  split; [reflexivity|]. split; [reflexivity|]. intros H.
  destruct (H 0) as [Hind _]; [vm_compute; lia|].
  apply (Hind eq_refl 0); [|reflexivity]. vm_compute. by left.
Qed.

End Verifier.

End MISFacts.

(** ** Properties of the BFS operators, the synchroniser and the round loop *)

Module BFSFacts.
Import BFS.

Section Operators.
Implicit Types (h : Host) (n v s t src dst : GNode) (es : list GNode).

Lemma uint_small z : (0 ≤ z ≤ UINT_MAX)%Z → uint z = z.
Proof. unfold uint, UINT_MAX. intros H. apply Z.mod_small. lia. Qed.

Lemma infinity_val : infinity = 1073741823%Z.
Proof. reflexivity. Qed.

Lemma UINT_MAX_val : UINT_MAX = 4294967295%Z.
Proof. reflexivity. Qed.

Lemma size_setData h n d : size (setData h n d) = size h.
Proof. unfold size, setData; simpl. apply length_insert. Qed.

Lemma getData_setData h n d v :
  v < size h →
  getData (setData h n d) v = if decide (v = n) then d else getData h v.
Proof.
  intros Hv. unfold getData, setData, size in *; simpl.
  rewrite list_lookup_total_insert.
  destruct (decide (v = n)) as [->|Hne].
  - by rewrite decide_True.
  - rewrite decide_False; [done|]. intros [? _]. congruence.
Qed.

(** What one turn of the edge loop leaves alone. *)
Lemma relax_frame h src dst :
  size (relax h src dst) = size h ∧
  edgeDst (relax h src dst) = edgeDst h ∧
  numOwned (relax h src dst) = numOwned h ∧
  globalID (relax h src dst) = globalID h ∧
  DGAccumulator_accum (relax h src dst) = DGAccumulator_accum h ∧
  (∀ v, v < size h →
     dist_old (getData (relax h src dst) v) = dist_old (getData h v)) ∧
  (∀ v, v < size h → v ≠ dst →
     dist_current (getData (relax h src dst) v) = dist_current (getData h v)).
Proof.
  unfold relax. split_and!; try done.
  - apply size_setData.
  - intros v Hv. rewrite getData_setData by done.
    case_decide; by subst.
  - intros v Hv Hne. rewrite getData_setData by done.
    by rewrite decide_False.
Qed.

Lemma relax_dist_current h src dst :
  dst < size h →
  dist_current (getData (relax h src dst) dst) =
    Z.min (dist_current (getData h dst)) (new_dist h src).
Proof.
  intros Hd. unfold relax. rewrite getData_setData by done.
  by rewrite decide_True.
Qed.

Lemma relax_edges_frame es : ∀ h src,
  size (relax_edges h src es) = size h ∧
  edgeDst (relax_edges h src es) = edgeDst h ∧
  numOwned (relax_edges h src es) = numOwned h ∧
  globalID (relax_edges h src es) = globalID h ∧
  DGAccumulator_accum (relax_edges h src es) = DGAccumulator_accum h ∧
  (∀ v, v < size h →
     dist_old (getData (relax_edges h src es) v) = dist_old (getData h v)) ∧
  (∀ v, v < size h → v ∉ es →
     dist_current (getData (relax_edges h src es) v) =
       dist_current (getData h v)).
Proof.
  induction es as [|d es IH]; intros h src; cbn [relax_edges]; [done|].
  destruct (IH (relax h src d) src) as (I1 & I2 & I3 & I4 & I5 & I6 & I7).
  destruct (relax_frame h src d) as (R1 & R2 & R3 & R4 & R5 & R6 & R7).
  split_and!; try congruence.
  - intros v Hv. rewrite I6 by lia. by apply R6.
  - intros v Hv [Hne Hnin]%not_elem_of_cons.
    rewrite I7 by (done || lia). by apply R7.
Qed.

(** When [1 + snode.dist_current] does not wrap, a self-loop cannot lower
    [snode.dist_current], every turn of the loop computes the same
    [new_dist], and the loop has a closed form. *)
Lemma relax_edges_dist es : ∀ h src d,
  src < size h →
  dist_current (getData h src) = d →
  (0 ≤ d < UINT_MAX)%Z →
  ∀ v, v < size h →
    dist_current (getData (relax_edges h src es) v) =
      if decide (v ∈ es) then Z.min (dist_current (getData h v)) (d + 1)
      else dist_current (getData h v).
Proof.
  induction es as [|e es IH]; intros h src d Hs Hd Hr v Hv; cbn [relax_edges].
  - rewrite decide_False; [done|]. apply not_elem_of_nil.
  - destruct (relax_frame h src e) as (R1 & _ & _ & _ & _ & _ & R7).
    assert (new_dist h src = (d + 1)%Z) as Hnd.
    { unfold new_dist. rewrite Hd, uint_small by lia. lia. }
    assert (∀ u, u < size h →
      dist_current (getData (relax h src e) u) =
        if decide (u = e) then Z.min (dist_current (getData h u)) (d + 1)
        else dist_current (getData h u)) as Hstep.
    { intros u Hu. case_decide as Hue.
      - subst u. by rewrite relax_dist_current, Hnd.
      - by apply R7. }
    rewrite (IH (relax h src e) src d); [| lia | | done | lia].
    + rewrite Hstep by done.
      destruct (decide (v = e)) as [->|Hne].
      * rewrite (decide_True (P := e ∈ e :: es)) by (by left).
        rewrite (decide_True (P := e = e)) by done.
        destruct (decide (e ∈ es)); lia.
      * rewrite (decide_False (P := v = e)) by done.
        destruct (decide (v ∈ es)) as [Hin|Hin].
        -- rewrite decide_True; [done|]. by right.
        -- rewrite decide_False; [done|]. by apply not_elem_of_cons.
    + rewrite Hstep by done. case_decide; lia.
Qed.

Lemma size_update_dist_old h s : size (update_dist_old h s) = size h.
Proof. apply size_setData. Qed.

Lemma getData_update_dist_old h s v :
  v < size h →
  dist_current (getData (update_dist_old h s) v) = dist_current (getData h v) ∧
  dist_old (getData (update_dist_old h s) v) =
    if decide (v = s) then dist_current (getData h s) else dist_old (getData h v).
Proof.
  intros Hv. unfold update_dist_old. rewrite getData_setData by done.
  case_decide; by subst.
Qed.

Lemma relax_edges_app es1 : ∀ es2 h src,
  relax_edges h src (es1 ++ es2) = relax_edges (relax_edges h src es1) src es2.
Proof. induction es1 as [|e es1 IH]; intros es2 h src; simpl; [done|]. apply IH. Qed.

Lemma uint_range_bounded z : (0 ≤ z ≤ infinity)%Z → (0 ≤ z < UINT_MAX)%Z.
Proof. rewrite infinity_val, UINT_MAX_val. lia. Qed.

(** *** No overflow below the sentinel *)

Lemma new_dist_bounded h src :
  bounded h → src < size h →
  new_dist h src = (1 + dist_current (getData h src))%Z ∧
  (0 < new_dist h src ≤ UINT_MAX)%Z.
Proof.
  intros Hb Hs. specialize (Hb src Hs). apply uint_range_bounded in Hb as Hb'.
  unfold new_dist. rewrite uint_small by lia. lia.
Qed.

Lemma bounded_relax h src dst :
  bounded h → src < size h → bounded (relax h src dst).
Proof.
  intros Hb Hs v Hv.
  destruct (relax_frame h src dst) as (R1 & _ & _ & _ & _ & _ & R7).
  rewrite R1 in Hv. destruct (decide (v = dst)) as [->|Hne].
  - rewrite relax_dist_current by done.
    destruct (new_dist_bounded h src Hb Hs) as [_ Hn].
    specialize (Hb dst Hv). lia.
  - rewrite R7 by done. by apply Hb.
Qed.

Lemma bounded_relax_edges es : ∀ h src,
  bounded h → src < size h → bounded (relax_edges h src es).
Proof.
  induction es as [|e es IH]; intros h src Hb Hs; cbn [relax_edges]; [done|].
  apply IH; [by apply bounded_relax|].
  destruct (relax_frame h src e) as (R1 & _). lia.
Qed.

Lemma bounded_update_dist_old h s : bounded h → bounded (update_dist_old h s).
Proof.
  intros Hb v Hv. rewrite size_update_dist_old in Hv.
  destruct (getData_update_dist_old h s v Hv) as [-> _]. by apply Hb.
Qed.

Lemma bounded_accum_add h k : bounded h → bounded (accum_add h k).
Proof. intros Hb v Hv. by apply Hb. Qed.

(** [InitializeGraph] stores 0 or the sentinel, and the [min] reduction of
    [Syncer_0] cannot raise a value. *)
Lemma InitializeGraph_operator_bounded o h v :
  v < size h →
  (0 ≤ dist_current (getData (InitializeGraph_operator o h v) v) ≤ infinity)%Z.
Proof.
  intros Hv. unfold InitializeGraph_operator. cbn zeta.
  rewrite getData_setData by done. rewrite decide_True by done. simpl.
  rewrite infinity_val. case_decide; lia.
Qed.

Lemma Syncer_0_reduce_bounded l node y :
  (0 ≤ dist_current node ≤ infinity)%Z → (0 ≤ y)%Z →
  (0 ≤ dist_current (reduce Syncer_0 l node y) ≤ infinity)%Z.
Proof. simpl. lia. Qed.

(** Claim C10.  On a host where every vertex has [dist_current] at most
    the sentinel [infinity = max()/4], every turn of the edge loop of
    [FirstItr_BFS::operator()] and of [BFS::operator()] computes
    [new_dist = 1 + snode.dist_current] without wrapping: the stored
    [unsigned int] equals the integer sum, is positive (so not 0) and at
    most [max()].  [hk] is the state at the turn for the edge to [t], after
    the edges [es1] before it were relaxed.  Both operators keep every
    [dist_current] at most the sentinel. *)
Theorem new_dist_no_overflow h s :
  bounded h → s < size h →
  (∀ es1 t es2, edges h s = es1 ++ t :: es2 →
     let hk := relax_edges (update_dist_old h s) s es1 in
     FirstItr_BFS_operator h s = relax_edges (relax hk s t) s es2 ∧
     new_dist hk s = (1 + dist_current (getData hk s))%Z ∧
     (0 < new_dist hk s ≤ UINT_MAX)%Z) ∧
  (∀ es1 t es2, edges h s = es1 ++ t :: es2 →
     (dist_old (getData h s) > dist_current (getData h s))%Z →
     let hk := relax_edges (accum_add (update_dist_old h s) 1) s es1 in
     BFS_operator h s = relax_edges (relax hk s t) s es2 ∧
     new_dist hk s = (1 + dist_current (getData hk s))%Z ∧
     (0 < new_dist hk s ≤ UINT_MAX)%Z) ∧
  bounded (FirstItr_BFS_operator h s) ∧
  bounded (BFS_operator h s).
Proof.
  intros Hb Hs.
  assert (bounded (update_dist_old h s)) as Hb1 by by apply bounded_update_dist_old.
  assert (s < size (update_dist_old h s)) as Hs1 by by rewrite size_update_dist_old.
  split_and!.
  - intros es1 t es2 He. cbn zeta. split.
    + unfold FirstItr_BFS_operator.
      replace (edges (update_dist_old h s) s) with (edges h s) by done.
      by rewrite He, relax_edges_app.
    + apply new_dist_bounded.
      * by apply bounded_relax_edges.
      * destruct (relax_edges_frame es1 (update_dist_old h s) s) as (-> & _). done.
  - intros es1 t es2 He Hgt. cbn zeta. split.
    + unfold BFS_operator. rewrite decide_True by done.
      replace (edges (accum_add (update_dist_old h s) 1) s) with (edges h s) by done.
      by rewrite He, relax_edges_app.
    + apply new_dist_bounded.
      * apply bounded_relax_edges; [by apply bounded_accum_add|done].
      * destruct (relax_edges_frame es1 (accum_add (update_dist_old h s) 1) s)
          as (-> & _). done.
  - unfold FirstItr_BFS_operator. by apply bounded_relax_edges.
  - unfold BFS_operator. case_decide; [|done].
    apply bounded_relax_edges; [by apply bounded_accum_add|done].
Qed.

(** Node-wise facts about a concrete host: split on the vertex number and
    evaluate. *)
Ltac by_vertex v Hv :=
  unfold size in Hv; simpl in Hv;
  repeat (destruct v as [|v];
          [unfold uint_range, getData; simpl;
           rewrite ?infinity_val, ?UINT_MAX_val; lia
          |try (exfalso; lia)]).

Lemma line3_started_reached :
  FirstItr_BFS_go (InitializeGraph_go {| maxIterations := 1; src_node := 2 |} [line3])
  = [line3_started].
Proof. vm_compute. reflexivity. Qed.

Lemma bounded_line3_started : bounded line3_started.
Proof. intros v Hv. by_vertex v Hv. Qed.

Lemma wf_data_line3_started : wf_data line3_started.
Proof. intros v Hv. by_vertex v Hv. Qed.

Lemma new_dist_no_overflow_witness :
  bounded line3_started ∧ 1 < size line3_started ∧
  new_dist (update_dist_old line3_started 1) 1 = 2%Z ∧
  bounded (FirstItr_BFS_operator line3_started 1).
Proof.
  assert (1 < size line3_started) as H1 by (vm_compute; lia).
  pose proof (new_dist_no_overflow line3_started 1 bounded_line3_started H1)
    as (HF & _ & HB & _).
  split_and!; [exact bounded_line3_started | exact H1 | | exact HB].
  destruct (HF [] 0 [] eq_refl) as (_ & Hn & _). exact Hn.
Defined.

(** *** The operators in closed form *)

(** Claim C4.  Applied to a vertex [s] of a host whose node data are
    [unsigned int] values, the steady operator, when
    [s.dist_old > s.dist_current], sets [s.dist_old] to [s.dist_current],
    adds 1 to the accumulator and leaves in every out-neighbour [t] the
    minimum of [t.dist_current] and [s.dist_current + 1]; the sum cannot
    wrap, because [s.dist_current] is below [s.dist_old].  All other node
    data and the topology are unchanged.  When
    [s.dist_old <= s.dist_current] the host state, accumulator included,
    is unchanged. *)
Theorem BFS_operator_spec h s :
  wf_data h → s < size h →
  let d := dist_current (getData h s) in
  ((dist_old (getData h s) > d)%Z →
     dist_old (getData (BFS_operator h s) s) = d ∧
     DGAccumulator_accum (BFS_operator h s) = (DGAccumulator_accum h + 1)%Z ∧
     (∀ t, t < size h → t ∈ edges h s →
        dist_current (getData (BFS_operator h s) t) =
          Z.min (dist_current (getData h t)) (d + 1)) ∧
     (∀ v, v < size h → v ∉ edges h s →
        dist_current (getData (BFS_operator h s) v) =
          dist_current (getData h v)) ∧
     (∀ v, v < size h → v ≠ s →
        dist_old (getData (BFS_operator h s) v) = dist_old (getData h v)) ∧
     size (BFS_operator h s) = size h ∧
     edgeDst (BFS_operator h s) = edgeDst h ∧
     numOwned (BFS_operator h s) = numOwned h ∧
     globalID (BFS_operator h s) = globalID h) ∧
  ((dist_old (getData h s) ≤ d)%Z → BFS_operator h s = h).
Proof.
  intros Hwf Hs d. split.
  - intros Hgt. unfold BFS_operator. rewrite decide_True by done. cbn zeta.
    set (h2 := accum_add (update_dist_old h s) 1).
    assert (size h2 = size h) as Hsz by apply size_update_dist_old.
    assert (∀ v, v < size h →
      dist_current (getData h2 v) = dist_current (getData h v) ∧
      dist_old (getData h2 v) =
        if decide (v = s) then d else dist_old (getData h v)) as Hh2.
    { intros v Hv. by apply getData_update_dist_old. }
    replace (edges h2 s) with (edges h s) by done.
    destruct (relax_edges_frame (edges h s) h2 s)
      as (F1 & F2 & F3 & F4 & F5 & F6 & F7).
    destruct (Hwf s Hs) as [[Hd0 _] [_ Ho]].
    assert (∀ v, v < size h →
      dist_current (getData (relax_edges h2 s (edges h s)) v) =
        if decide (v ∈ edges h s)
        then Z.min (dist_current (getData h v)) (d + 1)
        else dist_current (getData h v)) as Hdist.
    { intros v Hv. rewrite (relax_edges_dist (edges h s) h2 s d).
      - by destruct (Hh2 v Hv) as [-> _].
      - lia.
      - by destruct (Hh2 s Hs) as [-> _].
      - fold d in Hd0. lia.
      - lia. }
    split_and!.
    + rewrite F6 by lia. destruct (Hh2 s Hs) as [_ ->]. by rewrite decide_True.
    + by rewrite F5.
    + intros t Ht Hin. rewrite Hdist by done. by rewrite decide_True.
    + intros v Hv Hnin. rewrite Hdist by done. by rewrite decide_False.
    + intros v Hv Hne. rewrite F6 by lia. destruct (Hh2 v Hv) as [_ ->].
      by rewrite decide_False.
    + lia.
    + by rewrite F2.
    + by rewrite F3.
    + by rewrite F4.
  - intros Hle. unfold BFS_operator. rewrite decide_False; [done|]. fold d. lia.
Qed.

Lemma BFS_operator_spec_witness :
  wf_data line3_started ∧ 1 < size line3_started ∧
  dist_current (getData (BFS_operator line3_started 1) 0) = 2%Z ∧
  BFS_operator line3_started 2 = line3_started.
Proof.
  assert (1 < size line3_started) as H1 by (vm_compute; lia).
  assert (2 < size line3_started) as H2 by (vm_compute; lia).
  split_and!; [exact wf_data_line3_started | exact H1 | |].
  - destruct (BFS_operator_spec line3_started 1 wf_data_line3_started H1)
      as [Hact _].
    destruct Hact as (_ & _ & Hnb & _).
    + unfold getData; simpl. rewrite infinity_val. lia.
    + rewrite (Hnb 0); [reflexivity | lia |]. vm_compute. by left.
  - apply (BFS_operator_spec line3_started 2 wf_data_line3_started H2).
    unfold getData; simpl. lia.
Defined.

(** Claim C7 (amended).  Applied to a vertex [s] of a host whose node data
    are [unsigned int] values, the bootstrap operator unconditionally sets
    [s.dist_old] to [s.dist_current], leaves the accumulator, the topology,
    every other [dist_old] and the [dist_current] of every vertex that is
    not an out-neighbour of [s] unchanged; and when
    [s.dist_current < max()], so that [1 + s.dist_current] does not wrap,
    it leaves in every out-neighbour [t] the minimum of [t.dist_current]
    and [s.dist_current + 1]. *)
Theorem FirstItr_BFS_operator_spec h s :
  wf_data h → s < size h →
  let d := dist_current (getData h s) in
  dist_old (getData (FirstItr_BFS_operator h s) s) = d ∧
  DGAccumulator_accum (FirstItr_BFS_operator h s) = DGAccumulator_accum h ∧
  (∀ v, v < size h → v ∉ edges h s →
     dist_current (getData (FirstItr_BFS_operator h s) v) =
       dist_current (getData h v)) ∧
  (∀ v, v < size h → v ≠ s →
     dist_old (getData (FirstItr_BFS_operator h s) v) = dist_old (getData h v)) ∧
  size (FirstItr_BFS_operator h s) = size h ∧
  edgeDst (FirstItr_BFS_operator h s) = edgeDst h ∧
  numOwned (FirstItr_BFS_operator h s) = numOwned h ∧
  globalID (FirstItr_BFS_operator h s) = globalID h ∧
  ((d < UINT_MAX)%Z →
     ∀ t, t < size h → t ∈ edges h s →
       dist_current (getData (FirstItr_BFS_operator h s) t) =
         Z.min (dist_current (getData h t)) (d + 1)).
Proof.
  intros Hwf Hs d. unfold FirstItr_BFS_operator. cbn zeta.
  set (h1 := update_dist_old h s).
  assert (size h1 = size h) as Hsz by apply size_update_dist_old.
  assert (∀ v, v < size h →
    dist_current (getData h1 v) = dist_current (getData h v) ∧
    dist_old (getData h1 v) =
      if decide (v = s) then d else dist_old (getData h v)) as Hh1.
  { intros v Hv. by apply getData_update_dist_old. }
  replace (edges h1 s) with (edges h s) by done.
  destruct (relax_edges_frame (edges h s) h1 s)
    as (F1 & F2 & F3 & F4 & F5 & F6 & F7).
  split_and!.
  - rewrite F6 by lia. destruct (Hh1 s Hs) as [_ ->]. by rewrite decide_True.
  - by rewrite F5.
  - intros v Hv Hnin. rewrite F7 by (done || lia). by destruct (Hh1 v Hv) as [-> _].
  - intros v Hv Hne. rewrite F6 by lia. destruct (Hh1 v Hv) as [_ ->].
    by rewrite decide_False.
  - lia.
  - by rewrite F2.
  - by rewrite F3.
  - by rewrite F4.
  - intros Hd t Ht Hin. destruct (Hwf s Hs) as [[Hd0 _] _]. fold d in Hd0.
    rewrite (relax_edges_dist (edges h s) h1 s d).
    + rewrite decide_True by done. by destruct (Hh1 t Ht) as [-> _].
    + lia.
    + by destruct (Hh1 s Hs) as [-> _].
    + lia.
    + lia.
Qed.

Lemma FirstItr_BFS_operator_spec_witness :
  wf_data line3_started ∧ 1 < size line3_started ∧
  dist_old (getData (FirstItr_BFS_operator line3_started 1) 1) = 1%Z ∧
  dist_current (getData (FirstItr_BFS_operator line3_started 1) 0) = 2%Z.
Proof.
  assert (1 < size line3_started) as H1 by (vm_compute; lia).
  destruct (FirstItr_BFS_operator_spec line3_started 1 wf_data_line3_started H1)
    as (Hold & _ & _ & _ & _ & _ & _ & _ & Hnb).
  split_and!; [exact wf_data_line3_started | exact H1 | exact Hold |].
  rewrite (Hnb ltac:(vm_compute; reflexivity) 0); [reflexivity | lia |].
  vm_compute. by left.
Defined.

(** Claim C7 as stated fails for a state it does not exclude: with
    [s.dist_current = max()] the sum [1 + s.dist_current] wraps to 0.  On
    [wrap_host] the self-loop of vertex 0 then lowers [dist_current] of
    vertex 0 to 0, and the edge to vertex 1 leaves 1 there, which is
    neither [min(5, max() + 1)] over the integers nor [min(5, 0)] with the
    wrapped sum. *)
Lemma FirstItr_BFS_operator_wraps :
  wf_data wrap_host ∧
  1 ∈ edges wrap_host 0 ∧
  dist_current (getData wrap_host 0) = UINT_MAX ∧
  dist_current (getData wrap_host 1) = 5%Z ∧
  dist_current (getData (FirstItr_BFS_operator wrap_host 0) 1) = 1%Z ∧
  dist_current (getData (FirstItr_BFS_operator wrap_host 0) 1) ≠
    Z.min (dist_current (getData wrap_host 1))
          (dist_current (getData wrap_host 0) + 1) ∧
  dist_current (getData (FirstItr_BFS_operator wrap_host 0) 1) ≠
    Z.min (dist_current (getData wrap_host 1))
          (uint (dist_current (getData wrap_host 0) + 1)).
Proof.
  split_and!.
  - intros v Hv. by_vertex v Hv.
  - right. left.
  - vm_compute. reflexivity.
  - vm_compute. reflexivity.
  - vm_compute. reflexivity.
  - vm_compute. discriminate.
  - vm_compute. discriminate.
Qed.

End Operators.

Section Synchroniser.
Implicit Types (h : Host) (sys : System) (sy : Syncer) (P : SyncerPull).
Implicit Types (n v l lid : GNode).

Lemma getData_setData_ne h n d v :
  v ≠ n → getData (setData h n d) v = getData h v.
Proof.
  intros Hne. unfold getData, setData; simpl.
  by apply list_lookup_total_insert_ne.
Qed.

Lemma master_lid_lt h G l : master_lid h G = Some l → l < numOwned h.
Proof.
  unfold master_lid. intros Hf.
  destruct (list_find _ _) as [[i x]|] eqn:Hfind; [|done].
  simpl in Hf. injection Hf as ->.
  apply list_find_Some in Hfind as (Hl%lookup_take_Some & _). lia.
Qed.

(** Resetting the mirrors [a .. a+n-1] one after the other. *)
Lemma reset_seq sy n : ∀ a h,
  let h' := fold_left (λ h' lid, setData h' lid (reset sy lid (getData h' lid)))
              (seq a n) h in
  size h' = size h ∧ numOwned h' = numOwned h ∧
  DGAccumulator_accum h' = DGAccumulator_accum h ∧
  ∀ v, v < size h →
    getData h' v =
      if decide (a ≤ v < a + n) then reset sy v (getData h v) else getData h v.
Proof.
  induction n as [|n IH]; intros a h; cbn [seq fold_left].
  - split_and!; try done. intros v Hv. rewrite decide_False; [done|lia].
  - set (h1 := setData h a (reset sy a (getData h a))).
    destruct (IH (S a) h1) as (I1 & I2 & I3 & I4).
    cbn zeta. split_and!.
    + rewrite I1. apply size_setData.
    + by rewrite I2.
    + by rewrite I3.
    + intros v Hv. rewrite I4 by (unfold h1; by rewrite size_setData).
      unfold h1. rewrite getData_setData by done.
      destruct (decide (v = a)) as [->|Hne].
      * rewrite decide_False by lia. rewrite decide_True by lia. done.
      * destruct (decide (S a ≤ v < S a + n)).
        -- rewrite decide_True by lia. done.
        -- rewrite decide_False by lia. done.
Qed.

Lemma reset_mirrors_spec sy h :
  size (reset_mirrors sy h) = size h ∧
  numOwned (reset_mirrors sy h) = numOwned h ∧
  DGAccumulator_accum (reset_mirrors sy h) = DGAccumulator_accum h ∧
  ∀ v, numOwned h ≤ v < size h →
    getData (reset_mirrors sy h) v = reset sy v (getData h v).
Proof.
  unfold reset_mirrors, mirrors.
  destruct (reset_seq sy (size h - numOwned h) (numOwned h) h) as (R1 & R2 & R3 & R4).
  cbn zeta in *. split_and!; try done.
  intros v Hv. rewrite R4 by lia. rewrite decide_True by lia. done.
Qed.

(** A master applying a received value touches none of its mirrors. *)
Lemma apply_reduce_frame sy msg h :
  size (apply_reduce sy msg h) = size h ∧
  numOwned (apply_reduce sy msg h) = numOwned h ∧
  DGAccumulator_accum (apply_reduce sy msg h) = DGAccumulator_accum h ∧
  ∀ v, numOwned h ≤ v → getData (apply_reduce sy msg h) v = getData h v.
Proof.
  unfold apply_reduce. destruct (master_lid h msg.1) as [l|] eqn:Hl; [|done].
  apply master_lid_lt in Hl. split_and!; try done.
  - apply size_setData.
  - intros v Hv. apply getData_setData_ne. lia.
Qed.

Lemma deliver_frame sy msgs : ∀ sys i h,
  sys !! i = Some h →
  ∃ h', fold_left (λ sys' msg, apply_reduce sy msg <$> sys') msgs sys !! i = Some h' ∧
        size h' = size h ∧ numOwned h' = numOwned h ∧
        DGAccumulator_accum h' = DGAccumulator_accum h ∧
        ∀ v, numOwned h ≤ v → getData h' v = getData h v.
Proof.
  induction msgs as [|msg msgs IH]; intros sys i h Hi; cbn [fold_left].
  - by exists h.
  - destruct (apply_reduce_frame sy msg h) as (A1 & A2 & A3 & A4).
    destruct (IH (apply_reduce sy msg <$> sys) i (apply_reduce sy msg h))
      as (h' & Hh' & I1 & I2 & I3 & I4).
    { by rewrite list_lookup_fmap, Hi. }
    exists h'. split_and!; try congruence.
    intros v Hv. rewrite I4 by lia. by apply A4.
Qed.

(** After [sync_push] every mirror holds what [reset] leaves in it. *)
Lemma sync_push_mirror sy sys i h :
  sys !! i = Some h →
  ∃ h', sync_push sy sys !! i = Some h' ∧
        size h' = size h ∧ numOwned h' = numOwned h ∧
        DGAccumulator_accum h' = DGAccumulator_accum h ∧
        ∀ lid, numOwned h ≤ lid < size h →
          getData h' lid = reset sy lid (getData h lid).
Proof.
  intros Hi. unfold sync_push.
  destruct (reset_mirrors_spec sy h) as (R1 & R2 & R3 & R4).
  destruct (deliver_frame sy (sys ≫= push_messages sy) (reset_mirrors sy <$> sys)
              i (reset_mirrors sy h)) as (h' & Hh' & D1 & D2 & D3 & D4).
  { by rewrite list_lookup_fmap, Hi. }
  exists h'. split_and!; try congruence.
  intros lid Hlid. rewrite D4 by lia. by apply R4.
Qed.

(** Claim C2 (amended).  After [sync_push] of [dist_current] with
    [Syncer_0] (reduction [min]), [dist_current] at every mirror of every
    host equals [std::numeric_limits<unsigned int>::max()], the value
    [Syncer_0::reset] stores and the identity of [min] on [unsigned int];
    this is not the sentinel [infinity = max()/4]. *)
Theorem sync_push_resets_mirrors sys i h lid :
  sys !! i = Some h →
  numOwned h ≤ lid < size h →
  ∃ h', sync_push Syncer_0 sys !! i = Some h' ∧
        size h' = size h ∧ numOwned h' = numOwned h ∧
        dist_current (getData h' lid) = UINT_MAX ∧
        dist_current (getData h' lid) ≠ infinity.
Proof.
  intros Hi Hlid.
  destruct (sync_push_mirror Syncer_0 sys i h Hi) as (h' & Hh' & H1 & H2 & _ & H4).
  exists h'. rewrite (H4 lid Hlid). split_and!; done.
Qed.

Lemma sync_push_resets_mirrors_witness :
  ∃ h', sync_push Syncer_0 two_hosts !! 1 = Some h' ∧
        dist_current (getData h' 1) = 4294967295%Z.
Proof.
  destruct (sync_push_resets_mirrors two_hosts 1
              {| nodeData := [mkNodeData 7 7; mkNodeData 9 9];
                 edgeDst := [[]; []];
                 numOwned := 1;
                 globalID := [1; 0]%Z;
                 DGAccumulator_accum := 0 |} 1 eq_refl)
    as (h' & Hh' & _ & _ & Hd & _).
  - unfold size; simpl. lia.
  - exists h'. split; [exact Hh'|exact Hd].
Defined.

(** Claim C2 as stated fails: on [two_hosts] both mirrors (local id 1 on
    either host) hold [max() = 4294967295] after [sync_push], not the
    sentinel [infinity = max()/4 = 1073741823]; the masters (local id 0)
    hold the minima [min(5, 9)] and [min(7, 3)]. *)
Lemma sync_push_mirror_not_infinity :
  (λ h, dist_current (getData h 1)) <$> sync_push Syncer_0 two_hosts =
    [UINT_MAX; UINT_MAX] ∧
  (λ h, dist_current (getData h 0)) <$> sync_push Syncer_0 two_hosts =
    [5; 3]%Z ∧
  UINT_MAX = 4294967295%Z ∧
  infinity = 1073741823%Z ∧
  UINT_MAX ≠ infinity.
Proof.
  split; [vm_compute; reflexivity|]. split; [vm_compute; reflexivity|].
  split; [reflexivity|]. split; [reflexivity|]. vm_compute. discriminate.
Qed.

End Synchroniser.

Section Loop.
Implicit Types (h : Host) (sys : System) (sy : Syncer) (P : SyncerPull).

(** **** The synchroniser leaves the accumulators alone *)

Lemma accum_sync_push sy sys :
  DGAccumulator_accum <$> sync_push sy sys = DGAccumulator_accum <$> sys.
Proof.
  unfold sync_push.
  transitivity (DGAccumulator_accum <$> (reset_mirrors sy <$> sys)).
  - generalize (reset_mirrors sy <$> sys) as sys0.
    induction (sys ≫= push_messages sy) as [|msg msgs IH]; intros sys0;
      cbn [fold_left]; [done|].
    rewrite IH, <-list_fmap_compose. apply list_fmap_ext. intros _ h _. simpl.
    by destruct (apply_reduce_frame sy msg h) as (_ & _ & -> & _).
  - rewrite <-list_fmap_compose. apply list_fmap_ext. intros _ h _. simpl.
    by destruct (reset_mirrors_spec sy h) as (_ & _ & -> & _).
Qed.

Lemma accum_pull_mirrors P sys l : ∀ h,
  DGAccumulator_accum (fold_left (pull_mirror P sys) l h) = DGAccumulator_accum h.
Proof.
  induction l as [|lid l IH]; intros h; cbn [fold_left]; [done|].
  rewrite IH. unfold pull_mirror. by destruct (master_value _ _ _).
Qed.

Lemma accum_sync_pull P sys :
  DGAccumulator_accum <$> sync_pull P sys = DGAccumulator_accum <$> sys.
Proof.
  unfold sync_pull. rewrite <-list_fmap_compose. apply list_fmap_ext.
  intros _ h _. simpl. apply accum_pull_mirrors.
Qed.

(** **** The accumulator counts the activations of one round *)

Lemma BFS_operator_accum h s :
  (DGAccumulator_accum h ≤ DGAccumulator_accum (BFS_operator h s)
     ≤ DGAccumulator_accum h + 1)%Z.
Proof.
  unfold BFS_operator. case_decide; [|lia]. cbn zeta.
  destruct (relax_edges_frame
              (edges (accum_add (update_dist_old h s) 1) s)
              (accum_add (update_dist_old h s) 1) s) as (_ & _ & _ & _ & -> & _).
  simpl. lia.
Qed.

Lemma fold_BFS_operator_accum l : ∀ h,
  (DGAccumulator_accum h ≤ DGAccumulator_accum (fold_left BFS_operator l h)
     ≤ DGAccumulator_accum h + Z.of_nat (length l))%Z.
Proof.
  induction l as [|s l IH]; intros h; cbn [fold_left length]; [lia|].
  specialize (IH (BFS_operator h s)).
  pose proof (BFS_operator_accum h s). lia.
Qed.

Lemma accum_round_host h :
  (0 ≤ DGAccumulator_accum (do_all BFS_operator (accum_reset h))
     ≤ Z.of_nat (numOwned h))%Z.
Proof.
  unfold do_all. pose proof (fold_BFS_operator_accum (masters (accum_reset h)) (accum_reset h)) as H.
  unfold masters in H at 3. rewrite length_seq in H. simpl in H. lia.
Qed.

Lemma accum_BFS_round sys :
  DGAccumulator_accum <$> BFS_round sys =
    (λ h, DGAccumulator_accum (do_all BFS_operator (accum_reset h))) <$> sys.
Proof.
  unfold BFS_round. rewrite accum_sync_pull, accum_sync_push.
  by rewrite <-list_fmap_compose.
Qed.

Lemma accum_reduce_BFS_round_nonneg sys : (0 ≤ accum_reduce (BFS_round sys))%Z.
Proof.
  unfold accum_reduce. rewrite accum_BFS_round.
  induction sys as [|h sys IH]; [done|].
  rewrite fmap_cons. cbn [foldr].
  pose proof (accum_round_host h). lia.
Qed.

Lemma BFS_round_accum_reset sys : BFS_round (accum_reset <$> sys) = BFS_round sys.
Proof.
  unfold BFS_round. do 2 f_equal. rewrite <-list_fmap_compose.
  apply list_fmap_ext. by intros _ h _.
Qed.

(** **** The do-while loop *)

Lemma loop_post_continue fuel sys final k :
  accum_reduce (BFS_round sys) ≠ 0%Z →
  loop_post (S fuel) sys final k ↔
  ∃ k', k = S k' ∧ loop_post fuel (BFS_round sys) final k'.
Proof.
  intros Hr. unfold loop_post. split.
  - intros (Hk & -> & Hz & Hnz). destruct k as [|k']; [lia|]. exists k'.
    destruct (decide (k' = 0)) as [->|Hk']; [done|].
    rewrite !Nat.iter_succ_r in *. split_and!; [done|lia|lia|done|done|].
    intros j Hj. rewrite <-Nat.iter_succ_r. apply Hnz. lia.
  - intros (k' & -> & Hk & -> & Hz & Hnz).
    rewrite <-!Nat.iter_succ_r in *. split_and!; [lia|lia|done|done|].
    intros [|j] Hj; [lia|]. destruct (decide (j = 0)) as [->|Hj0]; [done|].
    rewrite Nat.iter_succ_r. apply Hnz. lia.
Qed.

Lemma loop_post_stop fuel sys final k :
  accum_reduce (BFS_round sys) = 0%Z →
  loop_post (S fuel) sys final k ↔ final = BFS_round sys ∧ k = 1.
Proof.
  intros Hr. unfold loop_post. split.
  - intros (Hk & -> & Hz & Hnz).
    destruct (decide (k = 1)) as [->|Hk1]; [done|].
    exfalso. apply (Hnz 1); [lia|done].
  - intros [-> ->]. split_and!; [lia|lia|done|done|]. intros j Hj. lia.
Qed.

Lemma BFS_loop_spec fuel : ∀ sys final k,
  BFS_loop fuel sys = Some (final, k) ↔ loop_post fuel sys final k.
Proof.
  induction fuel as [|fuel IH]; intros sys final k; cbn [BFS_loop].
  - split; [done|]. intros [? _]. lia.
  - cbn zeta. case_decide as Hr.
    + (* accum.reduce() is non-zero: another round *)
      rewrite loop_post_continue by done.
      destruct (BFS_loop fuel (BFS_round sys)) as [[f k']|] eqn:Hl; simpl.
      * split.
        -- intros [= <- <-]. exists k'. split; [done|]. by apply IH.
        -- intros (k'' & -> & Hp). apply IH in Hp. congruence.
      * split; [done|]. intros (k'' & -> & Hp). apply IH in Hp. congruence.
    + (* accum.reduce() is zero: the loop ends *)
      rewrite loop_post_stop by done. split.
      * by intros [= <- <-].
      * by intros [-> ->].
Qed.

(** Claim C6.  [BFS::go] runs the bootstrap once ([after_rounds 0]) and
    then steady rounds, each built on the state the previous one left.
    Every host resets its accumulator at the start of a round, so a round
    does not depend on the counters it finds and its all-reduce is the
    number of activations of that round, which is never negative.  The
    loop ends after [k] rounds in state [final] exactly when [k] is at
    least 1, the all-reduce after round [k] is 0 and the all-reduce after
    each earlier round is greater than 0: at least one steady round
    executes, a round is repeated exactly when its all-reduce is positive,
    and the loop stops at the first round whose all-reduce is 0 (given
    fuel for [k] rounds, it does return there). *)
Theorem BFS_go_spec sys :
  after_rounds 0 sys = FirstItr_BFS_go sys ∧
  (∀ n, after_rounds (S n) sys = BFS_round (after_rounds n sys)) ∧
  (∀ s, BFS_round (accum_reset <$> s) = BFS_round s) ∧
  (∀ s, DGAccumulator_accum <$> BFS_round s =
          (λ h, DGAccumulator_accum (do_all BFS_operator (accum_reset h))) <$> s) ∧
  (∀ n, (0 ≤ accum_reduce (after_rounds (S n) sys))%Z) ∧
  (∀ fuel final k,
     BFS_go fuel sys = Some (final, k) ↔
       1 ≤ k ≤ fuel ∧
       final = after_rounds k sys ∧
       accum_reduce (after_rounds k sys) = 0%Z ∧
       ∀ j, 1 ≤ j < k → (accum_reduce (after_rounds j sys) > 0)%Z).
Proof.
  split; [reflexivity|]. split; [reflexivity|].
  split; [apply BFS_round_accum_reset|].
  split; [apply accum_BFS_round|].
  split; [intros n; apply accum_reduce_BFS_round_nonneg|].
  intros fuel final k. unfold BFS_go. rewrite BFS_loop_spec.
  unfold loop_post, after_rounds. split.
  - intros (Hk & -> & Hz & Hnz).
    split; [exact Hk|]. split; [reflexivity|]. split; [exact Hz|].
    intros j Hj. specialize (Hnz j Hj). destruct j as [|j]; [lia|].
    pose proof (accum_reduce_BFS_round_nonneg
                  (Nat.iter j BFS_round (FirstItr_BFS_go sys))) as Hge.
    rewrite Nat.iter_succ in Hnz |- *. lia.
  - intros (Hk & -> & Hz & Hpos).
    split; [exact Hk|]. split; [reflexivity|]. split; [exact Hz|].
    intros j Hj. specialize (Hpos j Hj). lia.
Qed.

(** Claim C1 (the code does not do this).  [BFS::go] never reads
    [maxIterations]: the result of [main] is the same for every value of
    the option.  With [-maxIterations=1 -srcNodeId=0] on the line
    0 -> 1 -> 2 split over two hosts, each steady round carries the
    distance over one host boundary, so the loop runs three steady rounds,
    more than the cap, and stops only because the all-reduce reached 0;
    the masters end with the distances 0, 2 and 1 (vertices 0 and 2 on
    host 0, vertex 1 on host 1). *)
Theorem main_ignores_maxIterations :
  (∀ m1 m2 src fuel sys,
     main {| maxIterations := m1; src_node := src |} fuel sys =
     main {| maxIterations := m2; src_node := src |} fuel sys) ∧
  (∃ final,
     main {| maxIterations := 1; src_node := 0 |} 10 line3_split
       = Some (final, 3) ∧
     distances final = [[0; 2; 1]; [1; 2]]%Z) ∧
  (Z.of_nat 3 > maxIterations {| maxIterations := 1; src_node := 0 |})%Z.
Proof.
  split; [reflexivity|]. split; [|done].
  eexists. split; [vm_compute; reflexivity|]. vm_compute. reflexivity.
Qed.

End Loop.

End BFSFacts.

(** ** Further properties of the BFS operators and of a single-host run *)

Module BFSMore.
Import BFS BFSFacts.

Section Steps.
Implicit Types (h : Host) (n v s t src dst : GNode) (es : list GNode).

(** The counter commutes with the edge loop. *)
Lemma relax_edges_accum_add es : ∀ h src k,
  relax_edges (accum_add h k) src es = accum_add (relax_edges h src es) k.
Proof.
  induction es as [|e es IH]; intros h src k; cbn [relax_edges]; [done|].
  by rewrite <-IH.
Qed.

Lemma BFS_operator_unfold h s :
  BFS_operator h s =
    if decide (dist_old (getData h s) > dist_current (getData h s))%Z
    then accum_add (FirstItr_BFS_operator h s) 1
    else h.
Proof.
  unfold BFS_operator, FirstItr_BFS_operator. cbn zeta.
  case_decide; [|done]. apply relax_edges_accum_add.
Qed.

(** The edge loop never raises a [dist_current], whatever the arithmetic
    does. *)
Lemma relax_edges_le es : ∀ h src v,
  v < size h →
  (dist_current (getData (relax_edges h src es) v) ≤ dist_current (getData h v))%Z.
Proof.
  induction es as [|e es IH]; intros h src v Hv; cbn [relax_edges]; [lia|].
  destruct (relax_frame h src e) as (R1 & _ & _ & _ & _ & _ & R7).
  etrans; [apply IH; lia|].
  destruct (decide (v = e)) as [->|Hne].
  - rewrite relax_dist_current by done. lia.
  - rewrite R7 by done. lia.
Qed.

(** The bootstrap operator in closed form, below the sentinel. *)
Lemma FirstItr_closed h s :
  bounded h → s < size h →
  let d := dist_current (getData h s) in
  ∀ v, v < size h →
    dist_old (getData (FirstItr_BFS_operator h s) v) =
      (if decide (v = s) then d else dist_old (getData h v)) ∧
    dist_current (getData (FirstItr_BFS_operator h s) v) =
      (if decide (v ∈ edges h s) then Z.min (dist_current (getData h v)) (d + 1)
       else dist_current (getData h v)).
Proof.
  intros Hb Hs d v Hv. unfold FirstItr_BFS_operator. cbn zeta.
  replace (edges (update_dist_old h s) s) with (edges h s) by done.
  destruct (relax_edges_frame (edges h s) (update_dist_old h s) s)
    as (_ & _ & _ & _ & _ & F6 & _).
  destruct (getData_update_dist_old h s v Hv) as [Hc Ho].
  destruct (getData_update_dist_old h s s Hs) as [Hcs _].
  pose proof (uint_range_bounded _ (Hb s Hs)) as Hd.
  split.
  - rewrite F6 by (by rewrite size_update_dist_old). exact Ho.
  - rewrite (relax_edges_dist (edges h s) (update_dist_old h s) s d);
      rewrite ?size_update_dist_old; try done.
    by rewrite Hc.
Qed.

(** The bootstrap operator in closed form, whenever the sum cannot wrap. *)
Lemma FirstItr_closed_lt h s :
  s < size h →
  let d := dist_current (getData h s) in
  (0 ≤ d < UINT_MAX)%Z →
  ∀ v, v < size h →
    dist_old (getData (FirstItr_BFS_operator h s) v) =
      (if decide (v = s) then d else dist_old (getData h v)) ∧
    dist_current (getData (FirstItr_BFS_operator h s) v) =
      (if decide (v ∈ edges h s) then Z.min (dist_current (getData h v)) (d + 1)
       else dist_current (getData h v)).
Proof.
  intros Hs d Hd v Hv. unfold FirstItr_BFS_operator. cbn zeta.
  replace (edges (update_dist_old h s) s) with (edges h s) by done.
  destruct (relax_edges_frame (edges h s) (update_dist_old h s) s)
    as (_ & _ & _ & _ & _ & F6 & _).
  destruct (getData_update_dist_old h s v Hv) as [Hc Ho].
  destruct (getData_update_dist_old h s s Hs) as [Hcs _].
  split.
  - rewrite F6 by (by rewrite size_update_dist_old). exact Ho.
  - rewrite (relax_edges_dist (edges h s) (update_dist_old h s) s d);
      rewrite ?size_update_dist_old; try done.
    by rewrite Hc.
Qed.

(** Two hosts with the same topology and counter and the same node data
    are equal. *)
Lemma host_ext h1 h2 :
  size h1 = size h2 → edgeDst h1 = edgeDst h2 → numOwned h1 = numOwned h2 →
  globalID h1 = globalID h2 → DGAccumulator_accum h1 = DGAccumulator_accum h2 →
  (∀ v, v < size h1 → getData h1 v = getData h2 v) →
  h1 = h2.
Proof.
  destruct h1 as [n1 e1 o1 g1 a1], h2 as [n2 e2 o2 g2 a2].
  unfold size, getData; simpl. intros Hsz -> -> -> -> Hd. f_equal.
  apply list_eq. intros i. destruct (decide (i < length n1)) as [Hi|Hi].
  - rewrite !list_lookup_lookup_total_lt by lia. f_equal. by apply Hd.
  - rewrite !lookup_ge_None_2 by lia. done.
Qed.

Lemma FirstItr_frame h s :
  same_topology h (FirstItr_BFS_operator h s) ∧
  DGAccumulator_accum (FirstItr_BFS_operator h s) = DGAccumulator_accum h.
Proof.
  unfold FirstItr_BFS_operator, same_topology. cbn zeta.
  destruct (relax_edges_frame (edges (update_dist_old h s) s) (update_dist_old h s) s)
    as (F1 & F2 & F3 & F4 & F5 & _).
  rewrite F1, F2, F3, F4, F5, size_update_dist_old. done.
Qed.

End Steps.

Section Sums.

Lemma sum_insert (l : list NodeData) (i : nat) (x : NodeData) :
  i < length l →
  foldr Z.add 0%Z (dist_old <$> <[i := x]> l) =
    (foldr Z.add 0%Z (dist_old <$> l) - dist_old (l !!! i) + dist_old x)%Z.
Proof.
  revert i. induction l as [|a l IH]; intros i Hi; simpl in Hi; [lia|].
  destruct i as [|i].
  - cbn [insert list_insert]. rewrite !fmap_cons. cbn [foldr].
    change ((a :: l) !!! 0) with a. lia.
  - change (<[S i := x]> (a :: l)) with (a :: <[i := x]> l).
    rewrite !fmap_cons. cbn [foldr]. rewrite IH by lia.
    change ((a :: l) !!! S i) with (l !!! i). lia.
Qed.

Lemma sum_old_setData h n d :
  n < size h →
  sum_old (setData h n d) = (sum_old h - dist_old (getData h n) + dist_old d)%Z.
Proof. intros Hn. unfold sum_old, setData, getData; simpl. by apply sum_insert. Qed.

Lemma sum_old_relax h src dst : sum_old (relax h src dst) = sum_old h.
Proof.
  unfold relax. destruct (decide (dst < size h)) as [Hd|Hd].
  - rewrite sum_old_setData by done. simpl. lia.
  - unfold sum_old, setData; simpl. rewrite list_insert_ge; [done|].
    unfold size in Hd. lia.
Qed.

Lemma sum_old_relax_edges es : ∀ h src, sum_old (relax_edges h src es) = sum_old h.
Proof.
  induction es as [|e es IH]; intros h src; cbn [relax_edges]; [done|].
  by rewrite IH, sum_old_relax.
Qed.

Lemma sum_old_FirstItr h s :
  s < size h →
  sum_old (FirstItr_BFS_operator h s) =
    (sum_old h - dist_old (getData h s) + dist_current (getData h s))%Z.
Proof.
  intros Hs. unfold FirstItr_BFS_operator. cbn zeta.
  rewrite sum_old_relax_edges. unfold update_dist_old.
  by rewrite sum_old_setData.
Qed.

Lemma sum_old_nonneg h : bounded h → le_old h → (0 ≤ sum_old h)%Z.
Proof.
  intros Hb Hl. unfold sum_old.
  assert (∀ v, v < length (nodeData h) → (0 ≤ dist_old (nodeData h !!! v))%Z) as H.
  { intros v Hv. specialize (Hb v Hv). specialize (Hl v Hv).
    unfold getData, GNode in *. lia. }
  clear Hb Hl. induction (nodeData h) as [|a l IH]; [done|].
  rewrite fmap_cons. cbn [foldr].
  assert (0 ≤ dist_old a)%Z by (apply (H 0); simpl; lia).
  assert (0 ≤ foldr Z.add 0 (dist_old <$> l))%Z; [|lia].
  apply IH. intros v Hv. apply (H (S v)). simpl. lia.
Qed.

(** An activation lowers the sum of the [dist_old] fields by at least the
    1 it adds to the counter. *)
Lemma BFS_operator_measure (h : Host) (s : GNode) :
  s < size h →
  (sum_old (BFS_operator h s) + DGAccumulator_accum (BFS_operator h s)
     ≤ sum_old h + DGAccumulator_accum h)%Z.
Proof.
  intros Hs. rewrite BFS_operator_unfold. case_decide as Hg; [|lia].
  destruct (FirstItr_frame h s) as [_ Ha].
  change (sum_old (accum_add (FirstItr_BFS_operator h s) 1))
    with (sum_old (FirstItr_BFS_operator h s)).
  change (DGAccumulator_accum (accum_add (FirstItr_BFS_operator h s) 1))
    with (DGAccumulator_accum (FirstItr_BFS_operator h s) + 1)%Z.
  rewrite sum_old_FirstItr, Ha by done. lia.
Qed.

End Sums.

Section Invariant.
Variables (o : Options) (h0 : Host).
Hypothesis owned_le : numOwned h0 ≤ size h0.
Implicit Types (h : Host) (n v s t : GNode).

Lemma same_topology_edges h s : same_topology h0 h → edges h s = edges h0 s.
Proof. intros (_ & He & _). unfold edges. by rewrite He. Qed.

(** One application of the bootstrap operator to a master. *)
Lemma FirstItr_inv h s :
  bfs_inv h0 o h → s < numOwned h0 → bfs_inv h0 o (FirstItr_BFS_operator h s).
Proof.
  intros (Ht & Hb & Hl & Hsd) Hs.
  destruct Ht as (T1 & T2 & T3 & T4).
  assert (s < size h) as Hs' by lia.
  destruct (FirstItr_frame h s) as [(F1 & F2 & F3 & F4) _].
  pose proof (FirstItr_closed h s Hb Hs') as Hcl. cbn zeta in Hcl.
  assert (bounded (FirstItr_BFS_operator h s)) as Hb'.
  { unfold FirstItr_BFS_operator. apply bounded_relax_edges.
    - by apply bounded_update_dist_old.
    - by rewrite size_update_dist_old. }
  split_and!.
  - unfold same_topology. rewrite F1, F2, F3, F4. done.
  - exact Hb'.
  - intros v Hv. rewrite F1 in Hv. destruct (Hcl v Hv) as [-> ->].
    pose proof (Hl v Hv) as Hlv. pose proof (Hb s Hs') as Hbs.
    destruct (decide (v = s)) as [->|Hne]; repeat case_decide; try done; lia.
  - intros v Hv. rewrite F1 in Hv. destruct (Hcl v Hv) as [_ ->].
    case_decide as Hin; [|by apply Hsd].
    destruct (Z.min_spec (dist_current (getData h v))
                (dist_current (getData h s) + 1)) as [[_ ->]|[Hlt ->]];
      [by apply Hsd|].
    destruct (Hsd s Hs') as [Hinf|(n & Hw & Hn)].
    + pose proof (Hb v Hv) as Hbv. lia.
    + right. exists (S n). split; [|lia].
      eapply walk_edge; [exact Hw|done|].
      unfold edges in *. by rewrite <-T2.
Qed.

(** The visited vertex has relaxed its edges, and a vertex that had done
    so before still has. *)
Lemma FirstItr_relaxed h s :
  bounded h → le_old h → s < size h →
  relaxed (FirstItr_BFS_operator h s) s ∧
  ∀ s', s' < size h → relaxed h s' → relaxed (FirstItr_BFS_operator h s) s'.
Proof.
  intros Hb Hl Hs.
  destruct (FirstItr_frame h s) as [(F1 & F2 & F3 & F4) _].
  pose proof (FirstItr_closed h s Hb Hs) as Hcl. cbn zeta in Hcl.
  assert (∀ u, edges (FirstItr_BFS_operator h s) u = edges h u) as He.
  { intros u. unfold edges. by rewrite F2. }
  split.
  - intros t Hin Ht. rewrite He in Hin. rewrite F1 in Ht.
    destruct (Hcl t Ht) as [_ ->]. destruct (Hcl s Hs) as [-> _].
    rewrite decide_True by done. rewrite decide_True by done. lia.
  - intros s' Hs' Hr t Hin Ht. rewrite He in Hin. rewrite F1 in Ht.
    specialize (Hr t Hin Ht).
    destruct (Hcl t Ht) as [_ ->]. destruct (Hcl s' Hs') as [-> _].
    destruct (decide (s' = s)) as [->|Hne].
    + rewrite decide_True by done. lia.
    + case_decide; lia.
Qed.

Lemma accum_add_inv h k : bfs_inv h0 o h → bfs_inv h0 o (accum_add h k).
Proof. by intros (Ht & Hb & Hl & Hsd). Qed.

(** One application of the steady operator to a master. *)
Lemma BFS_operator_inv h s :
  bfs_inv h0 o h → s < numOwned h0 → bfs_inv h0 o (BFS_operator h s).
Proof.
  intros Hi Hs. rewrite BFS_operator_unfold. case_decide; [|done].
  apply accum_add_inv. by apply FirstItr_inv.
Qed.

Lemma BFS_operator_relaxed h s s' :
  bfs_inv h0 o h → s < numOwned h0 → s' < size h0 →
  relaxed h s' → relaxed (BFS_operator h s) s'.
Proof.
  intros (Ht & Hb & Hl & _) Hs Hs' Hr. destruct Ht as (T1 & _).
  rewrite BFS_operator_unfold. case_decide; [|done].
  destruct (FirstItr_relaxed h s Hb Hl) as [_ Hk]; [lia|].
  apply (Hk s'); [lia|done].
Qed.

Lemma FirstItr_sources_zero h s :
  bfs_inv h0 o h → s < numOwned h0 →
  sources_zero h0 o h → sources_zero h0 o (FirstItr_BFS_operator h s).
Proof.
  intros Hi Hs Hz v Hv Hg.
  pose proof (FirstItr_inv h s Hi Hs) as (_ & Hb' & _).
  destruct Hi as ((T1 & _) & _).
  destruct (FirstItr_frame h s) as [(F1 & _) _].
  assert (v < size h) as Hv' by lia.
  pose proof (relax_edges_le (edges (update_dist_old h s) s) (update_dist_old h s) s v)
    as Hle.
  rewrite size_update_dist_old in Hle. specialize (Hle Hv').
  destruct (getData_update_dist_old h s v Hv') as [Hc _]. rewrite Hc in Hle.
  specialize (Hz v Hv Hg). specialize (Hb' v). rewrite F1 in Hb'.
  specialize (Hb' Hv'). unfold FirstItr_BFS_operator in Hb'. cbn zeta in Hb'.
  unfold FirstItr_BFS_operator. cbn zeta. lia.
Qed.

Lemma BFS_operator_sources_zero h s :
  bfs_inv h0 o h → s < numOwned h0 →
  sources_zero h0 o h → sources_zero h0 o (BFS_operator h s).
Proof.
  intros Hi Hs Hz. rewrite BFS_operator_unfold. case_decide; [|done].
  by apply (FirstItr_sources_zero h s).
Qed.

(** **** A pass of an operator over a list of masters *)

Lemma fold_FirstItr l : ∀ h (A : GNode → Prop),
  bfs_inv h0 o h → sources_zero h0 o h →
  (∀ s, s ∈ l → s < numOwned h0) →
  (∀ s, A s → s < size h0 → relaxed h s) →
  bfs_inv h0 o (fold_left FirstItr_BFS_operator l h) ∧
  sources_zero h0 o (fold_left FirstItr_BFS_operator l h) ∧
  DGAccumulator_accum (fold_left FirstItr_BFS_operator l h) = DGAccumulator_accum h ∧
  ∀ s, A s ∨ s ∈ l → s < size h0 →
    relaxed (fold_left FirstItr_BFS_operator l h) s.
Proof.
  induction l as [|a l IH]; intros h A Hi Hz Hl HA; cbn [fold_left].
  - split_and!; try done. intros s [Hs|Hs] ?; [by apply HA|].
    by apply elem_of_nil in Hs.
  - assert (a < numOwned h0) as Ha by (apply Hl; by left).
    pose proof Hi as ((T1 & _) & Hb & Hle & _).
    destruct (FirstItr_relaxed h a Hb Hle) as [Hra Hrk]; [lia|].
    destruct (IH (FirstItr_BFS_operator h a) (λ s, A s ∨ s = a))
      as (I1 & I2 & I3 & I4).
    + by apply FirstItr_inv.
    + by apply FirstItr_sources_zero.
    + intros s Hs. apply Hl. by right.
    + intros s [Hs| ->] Hsz; [|done]. apply Hrk; [lia|by apply HA].
    + split_and!; try done.
      * rewrite I3. by destruct (FirstItr_frame h a) as [_ ->].
      * intros s [Hs|[->|Hs]%elem_of_cons] Hsz; apply I4; auto.
Qed.

Lemma fold_BFS l : ∀ h,
  bfs_inv h0 o h → sources_zero h0 o h →
  (∀ s, s ∈ l → s < numOwned h0) →
  (∀ s, s < size h0 → relaxed h s) →
  bfs_inv h0 o (fold_left BFS_operator l h) ∧
  sources_zero h0 o (fold_left BFS_operator l h) ∧
  (∀ s, s < size h0 → relaxed (fold_left BFS_operator l h) s) ∧
  (sum_old (fold_left BFS_operator l h)
     + DGAccumulator_accum (fold_left BFS_operator l h)
   ≤ sum_old h + DGAccumulator_accum h)%Z.
Proof.
  induction l as [|a l IH]; intros h Hi Hz Hl Hr; cbn [fold_left].
  - split_and!; done.
  - assert (a < numOwned h0) as Ha by (apply Hl; by left).
    pose proof Hi as ((T1 & _) & _).
    destruct (IH (BFS_operator h a)) as (I1 & I2 & I3 & I4).
    + by apply BFS_operator_inv.
    + by apply BFS_operator_sources_zero.
    + intros s Hs. apply Hl. by right.
    + intros s Hs. apply BFS_operator_relaxed; auto.
    + split_and!; try done.
      pose proof (BFS_operator_measure h a). lia.
Qed.

End Invariant.

Section Quiescence.
Implicit Types (h : Host) (s : GNode).

(** A pass of the steady operator that leaves the counter as it was has
    changed nothing, and found no vertex to activate. *)
Lemma fold_BFS_noop l : ∀ h,
  DGAccumulator_accum (fold_left BFS_operator l h) = DGAccumulator_accum h →
  fold_left BFS_operator l h = h ∧
  ∀ s, s ∈ l → (dist_old (getData h s) ≤ dist_current (getData h s))%Z.
Proof.
  induction l as [|a l IH]; intros h Ha; cbn [fold_left] in *.
  - split; [done|]. intros s Hs. by apply elem_of_nil in Hs.
  - pose proof (BFS_operator_accum h a) as H1.
    pose proof (fold_BFS_operator_accum l (BFS_operator h a)) as H2.
    assert (DGAccumulator_accum (BFS_operator h a) = DGAccumulator_accum h) as He by lia.
    assert (BFS_operator h a = h ∧
            (dist_old (getData h a) ≤ dist_current (getData h a))%Z) as [Hid Hq].
    { rewrite BFS_operator_unfold in He |- *. case_decide as Hg; [|split; [done|lia]].
      destruct (FirstItr_frame h a) as [_ Hf].
      change (DGAccumulator_accum (accum_add (FirstItr_BFS_operator h a) 1))
        with (DGAccumulator_accum (FirstItr_BFS_operator h a) + 1)%Z in He.
      exfalso. lia. }
    rewrite Hid in *. destruct (IH h Ha) as [I1 I2]. split; [done|].
    intros s [->|Hs]%elem_of_cons; auto.
Qed.

Lemma fold_BFS_quiet l : ∀ h,
  (∀ s, s ∈ l → (dist_old (getData h s) ≤ dist_current (getData h s))%Z) →
  fold_left BFS_operator l h = h.
Proof.
  induction l as [|a l IH]; intros h Hq; cbn [fold_left]; [done|].
  assert (BFS_operator h a = h) as ->.
  { rewrite BFS_operator_unfold. rewrite decide_False; [done|].
    assert (a ∈ a :: l) as Hin by (by left). specialize (Hq a Hin). lia. }
  apply IH. intros s Hs. apply Hq. by right.
Qed.

End Quiescence.

Section Initialise.
Variable o : Options.
Implicit Types (h : Host) (v : GNode).

Lemma InitializeGraph_operator_unfold h v :
  InitializeGraph_operator o h v =
    setData h v (mkNodeData (init_value o h v) (init_value o h v)).
Proof. reflexivity. Qed.

Lemma init_seq n : ∀ a h,
  let h' := fold_left (InitializeGraph_operator o) (seq a n) h in
  same_topology h h' ∧
  DGAccumulator_accum h' = DGAccumulator_accum h ∧
  ∀ v, v < size h →
    getData h' v =
      if decide (a ≤ v < a + n)
      then mkNodeData (init_value o h v) (init_value o h v)
      else getData h v.
Proof.
  induction n as [|n IH]; intros a h; cbn [seq fold_left].
  - cbn zeta. split_and!; try done. intros v Hv.
    destruct (decide (a ≤ v < a + 0)); [lia|done].
  - set (h1 := InitializeGraph_operator o h a).
    destruct (IH (S a) h1) as ((I1 & I2 & I3 & I4) & I5 & I6).
    assert (size h1 = size h) as Hsz by apply size_setData.
    cbn zeta. split_and!.
    + unfold same_topology. rewrite I1, I2, I3, I4. done.
    + by rewrite I5.
    + intros v Hv. rewrite I6 by lia.
      change (init_value o h1 v) with (init_value o h v).
      unfold h1. rewrite InitializeGraph_operator_unfold.
      rewrite getData_setData by done.
      destruct (decide (v = a)) as [->|Hne].
      * rewrite (decide_False (P := S a ≤ a < S a + n)) by lia.
        rewrite (decide_True (P := a ≤ a < a + S n)) by lia. done.
      * destruct (decide (S a ≤ v < S a + n)).
        -- rewrite (decide_True (P := a ≤ v < a + S n)) by lia. done.
        -- rewrite (decide_False (P := a ≤ v < a + S n)) by lia. done.
Qed.

(** The initialisation pass over the masters. *)
Lemma do_all_InitializeGraph h :
  same_topology h (do_all (InitializeGraph_operator o) h) ∧
  DGAccumulator_accum (do_all (InitializeGraph_operator o) h) = DGAccumulator_accum h ∧
  ∀ v, v < size h →
    getData (do_all (InitializeGraph_operator o) h) v =
      if decide (v < numOwned h)
      then mkNodeData (init_value o h v) (init_value o h v)
      else getData h v.
Proof.
  unfold do_all, masters.
  destruct (init_seq (numOwned h) 0 h) as (I1 & I2 & I3). cbn zeta in *.
  split_and!; try done. intros v Hv. rewrite I3 by done.
  destruct (decide (v < numOwned h)).
  - rewrite decide_True by lia. done.
  - rewrite decide_False by lia. done.
Qed.

Lemma init_value_range h v : (0 ≤ init_value o h v ≤ infinity)%Z.
Proof. unfold init_value. rewrite infinity_val. case_decide; lia. Qed.

(** On a host without mirrors the initialisation establishes everything the
    operators rely on. *)
Lemma do_all_InitializeGraph_inv h :
  numOwned h = size h →
  bfs_inv h o (do_all (InitializeGraph_operator o) h) ∧
  sources_zero h o (do_all (InitializeGraph_operator o) h).
Proof.
  intros Hn. destruct (do_all_InitializeGraph h) as (Ht & _ & Hd).
  pose proof Ht as (T1 & _).
  assert (∀ v, v < size h →
    getData (do_all (InitializeGraph_operator o) h) v =
      mkNodeData (init_value o h v) (init_value o h v)) as Hd'.
  { intros v Hv. rewrite Hd by done. rewrite decide_True by lia. done. }
  split; [split_and!|].
  - exact Ht.
  - intros v Hv. rewrite Hd' by lia. apply init_value_range.
  - intros v Hv. rewrite Hd' by lia. simpl. lia.
  - intros v Hv. rewrite Hd' by lia. simpl. unfold init_value.
    case_decide as Hg; [|by left]. right. exists 0. split; [|done].
    apply walk_source; [lia|done].
  - intros s Hs Hg. rewrite Hd' by lia. simpl. unfold init_value.
    by rewrite decide_True.
Qed.

End Initialise.

Section SingleHost.
Implicit Types (h : Host) (sy : Syncer) (P : SyncerPull).

Lemma mirrors_nil h : size h ≤ numOwned h → mirrors h = [].
Proof. intros H. unfold mirrors. by replace (size h - numOwned h) with 0 by lia. Qed.

(** Without mirrors there is nothing to synchronise. *)
Lemma sync_push_single sy h : size h ≤ numOwned h → sync_push sy [h] = [h].
Proof.
  intros H. unfold sync_push, push_messages, reset_mirrors.
  cbn [mbind list_bind fmap list_fmap]. rewrite (mirrors_nil h H). done.
Qed.

Lemma sync_pull_single P h : size h ≤ numOwned h → sync_pull P [h] = [h].
Proof.
  intros H. unfold sync_pull. cbn [fmap list_fmap]. rewrite (mirrors_nil h H). done.
Qed.

End SingleHost.

(** *** A run on one host without mirrors *)

Section Run.
Variables (o : Options) (h0 : Host).
Hypothesis all_owned : numOwned h0 = size h0.
Hypothesis edges_ok : wf_edges h0.
Implicit Types (h : Host) (v s t : GNode).

Lemma accum_reset_inv h : bfs_inv h0 o h → bfs_inv h0 o (accum_reset h).
Proof. by intros (Ht & Hb & Hl & Hsd). Qed.

Lemma masters_owned h s : same_topology h0 h → s ∈ masters h → s < numOwned h0.
Proof. intros (_ & _ & T3 & _) [_ Hs]%elem_of_seq. lia. Qed.

Lemma no_mirrors h : same_topology h0 h → size h ≤ numOwned h.
Proof. intros (T1 & _ & T3 & _). lia. Qed.

(** What one round does to the only host. *)
Lemma round_single h :
  bfs_inv h0 o h → sources_zero h0 o h → (∀ s, s < size h0 → relaxed h s) →
  let h1 := do_all BFS_operator (accum_reset h) in
  BFS_round [h] = [h1] ∧
  bfs_inv h0 o h1 ∧ sources_zero h0 o h1 ∧ (∀ s, s < size h0 → relaxed h1 s) ∧
  (0 ≤ DGAccumulator_accum h1)%Z ∧
  (sum_old h1 + DGAccumulator_accum h1 ≤ sum_old h)%Z.
Proof.
  intros Hi Hz Hr h1.
  assert (numOwned h0 ≤ size h0) as Hle0 by lia.
  assert (∀ s, s ∈ masters (accum_reset h) → s < numOwned h0) as Hm.
  { intros s Hs. apply (masters_owned h); [by destruct Hi|done]. }
  destruct (fold_BFS o h0 Hle0 (masters (accum_reset h)) (accum_reset h)
              (accum_reset_inv h Hi) Hz Hm Hr) as (I1 & I2 & I3 & I4).
  fold (do_all BFS_operator (accum_reset h)) in I1, I2, I3, I4. fold h1 in I1, I2, I3, I4.
  pose proof I1 as (Ht1 & _).
  split_and!; try done.
  - unfold BFS_round. cbn [fmap list_fmap]. fold h1.
    rewrite sync_push_single by (by apply no_mirrors).
    by rewrite sync_pull_single by (by apply no_mirrors).
  - apply accum_round_host.
  - change (sum_old (accum_reset h)) with (sum_old h) in I4.
    change (DGAccumulator_accum (accum_reset h)) with 0%Z in I4. lia.
Qed.

(** A round whose counter stays 0 ends the loop and leaves a quiescent
    host. *)
Lemma loop_stop h :
  bfs_inv h0 o h → sources_zero h0 o h → (∀ s, s < size h0 → relaxed h s) →
  DGAccumulator_accum (do_all BFS_operator (accum_reset h)) = 0%Z →
  BFS_loop 1 [h] = Some ([do_all BFS_operator (accum_reset h)], 1) ∧
  quiescent (do_all BFS_operator (accum_reset h)).
Proof.
  intros Hi Hz Hr Hq.
  destruct (round_single h Hi Hz Hr) as (R1 & R2 & _). cbn zeta in *.
  split.
  - cbn [BFS_loop]. cbn zeta. rewrite R1.
    rewrite decide_False; [done|]. unfold accum_reduce. simpl. lia.
  - destruct (fold_BFS_noop (masters (accum_reset h)) (accum_reset h) Hq) as [Hid Hq'].
    fold (do_all BFS_operator (accum_reset h)) in Hid. rewrite Hid.
    intros s Hs. apply (Hq' s). apply elem_of_seq. simpl in *. lia.
Qed.

(** The loop stops: every round that does not end it lowers the sum of the
    [dist_old] fields, which cannot fall below 0. *)
Lemma loop_single m : ∀ h,
  bfs_inv h0 o h → sources_zero h0 o h → (∀ s, s < size h0 → relaxed h s) →
  (sum_old h ≤ Z.of_nat m)%Z →
  ∃ fuel h' k,
    BFS_loop fuel [h] = Some ([h'], k) ∧
    bfs_inv h0 o h' ∧ sources_zero h0 o h' ∧
    (∀ s, s < size h0 → relaxed h' s) ∧ quiescent h'.
Proof.
  induction m as [|m IH]; intros h Hi Hz Hr Hm;
    destruct (round_single h Hi Hz Hr) as (R1 & R2 & R3 & R4 & R5 & R6);
    cbn zeta in *;
    destruct (decide (DGAccumulator_accum (do_all BFS_operator (accum_reset h)) = 0%Z))
      as [Hq|Hq].
  - destruct (loop_stop h Hi Hz Hr Hq) as [L1 L2].
    by exists 1, (do_all BFS_operator (accum_reset h)), 1.
  - exfalso. destruct R2 as (_ & Hb & Hl & _).
    pose proof (sum_old_nonneg _ Hb Hl). lia.
  - destruct (loop_stop h Hi Hz Hr Hq) as [L1 L2].
    by exists 1, (do_all BFS_operator (accum_reset h)), 1.
  - destruct (IH _ R2 R3 R4) as (fuel & h' & k & Hl & Hrest); [lia|].
    exists (S fuel), h', (S k). split; [|done].
    cbn [BFS_loop]. cbn zeta. rewrite R1.
    rewrite decide_True by (unfold accum_reduce; simpl; lia).
    by rewrite Hl.
Qed.

(** At a quiescent state every edge obeys the BFS inequality, so no walk
    from the source is shorter than the distance found. *)
Lemma quiescent_complete h :
  bfs_inv h0 o h → sources_zero h0 o h →
  (∀ s, s < size h0 → relaxed h s) → quiescent h →
  ∀ v n, walk h0 o v n → v < size h0 ∧ (dist_current (getData h v) ≤ Z.of_nat n)%Z.
Proof.
  intros ((T1 & T2 & T3 & T4) & Hb & Hl & _) Hz Hr Hq v n Hw.
  induction Hw as [s Hs Hg|s t n Hw [IH1 IH2] Hs Ht].
  - split; [lia|]. rewrite (Hz s Hs Hg). lia.
  - assert (t < size h0) as Htsz by (by apply (edges_ok s)).
    split; [done|].
    assert (dist_current (getData h t) ≤ dist_old (getData h s) + 1)%Z as H1.
    { apply (Hr s IH1); [|lia]. unfold edges in *. by rewrite T2. }
    assert (dist_old (getData h s) ≤ dist_current (getData h s))%Z as H2.
    { apply Hq. lia. }
    lia.
Qed.

(** The whole run, prepared for the statement below. *)
Lemma run_single :
  ∃ fuel h' k,
    main o fuel [h0] = Some ([h'], k) ∧
    bfs_inv h0 o h' ∧ sources_zero h0 o h' ∧
    (∀ s, s < size h0 → relaxed h' s) ∧ quiescent h'.
Proof.
  destruct (do_all_InitializeGraph_inv o h0 all_owned) as [Hi1 Hz1].
  set (h1 := do_all (InitializeGraph_operator o) h0) in *.
  pose proof Hi1 as (Ht1 & _).
  assert (numOwned h0 ≤ size h0) as Hle0 by lia.
  assert (∀ s, s ∈ masters h1 → s < numOwned h0) as Hm.
  { intros s Hs. by apply (masters_owned h1). }
  destruct (fold_FirstItr o h0 Hle0 (masters h1) h1 (λ _, False) Hi1 Hz1 Hm)
    as (Hi2 & Hz2 & _ & Hr2); [done|].
  fold (do_all FirstItr_BFS_operator h1) in Hi2, Hz2, Hr2.
  set (h2 := do_all FirstItr_BFS_operator h1) in *.
  pose proof Hi2 as (Ht2 & _).
  destruct (loop_single (Z.to_nat (sum_old h2)) h2) as (fuel & h' & k & Hl & Hrest);
    try done.
  { intros s Hs. apply Hr2; [|done]. right. apply elem_of_seq.
    destruct Ht1 as (_ & _ & T3 & _). lia. }
  { destruct Hi2 as (_ & Hb & Hle & _). pose proof (sum_old_nonneg h2 Hb Hle). lia. }
  exists fuel, h', k. split; [|done].
  unfold main, BFS_go, InitializeGraph_go, FirstItr_BFS_go.
  cbn [fmap list_fmap]. fold h1.
  rewrite (sync_pull_single _ h1) by (by apply no_mirrors).
  cbn [fmap list_fmap]. fold h2.
  rewrite (sync_push_single _ h2) by (by apply no_mirrors).
  rewrite (sync_pull_single _ h2) by (by apply no_mirrors).
  exact Hl.
Qed.

End Run.

(** *** Statements *)

Section Statements.
Implicit Types (h : Host) (o : Options) (v s t : GNode).

Lemma BFS_loop_mono fuel fuel' sys r :
  BFS_loop fuel sys = Some r → fuel ≤ fuel' → BFS_loop fuel' sys = Some r.
Proof.
  destruct r as [final k]. rewrite !BFS_loop_spec. unfold loop_post.
  intros (Hk & Hrest) Hle. split; [lia|done].
Qed.

Lemma wf_edges_line3 : wf_edges line3.
Proof.
  intros s t Ht. unfold edges, line3 in Ht; simpl in Ht.
  destruct s as [|[|[|s]]]; simpl in Ht.
  - by apply elem_of_nil in Ht.
  - apply list_elem_of_singleton in Ht. subst. unfold size; simpl. lia.
  - apply list_elem_of_singleton in Ht. subst. unfold size; simpl. lia.
  - by apply elem_of_nil in Ht.
Qed.

(** X1.  A run of [main] on one host that owns all its vertices (no
    mirrors) and whose edges end at its vertices terminates: some number
    of rounds suffices, and any larger fuel gives the same result.  In the
    final state the topology is that of the input, [dist_old] equals
    [dist_current] everywhere, and [dist_current] of every vertex is the
    length of a shortest walk from the source: no walk from the source to
    the vertex is shorter, and the value is either the sentinel or the
    length of such a walk. *)
Theorem BFS_single_host_shortest_paths o h :
  numOwned h = size h → wf_edges h →
  ∃ fuel h' k,
    (∀ fuel', fuel ≤ fuel' → main o fuel' [h] = Some ([h'], k)) ∧
    same_topology h h' ∧
    ∀ v, v < size h →
      dist_old (getData h' v) = dist_current (getData h' v) ∧
      (∀ n, walk h o v n → (dist_current (getData h' v) ≤ Z.of_nat n)%Z) ∧
      (dist_current (getData h' v) = infinity ∨
       ∃ n, walk h o v n ∧ dist_current (getData h' v) = Z.of_nat n).
Proof.
  intros Hn He.
  destruct (run_single o h Hn) as (fuel & h' & k & Hm & Hi & Hz & Hr & Hq).
  exists fuel, h', k. split_and!.
  - intros fuel' Hle. unfold main, BFS_go in *. by eapply BFS_loop_mono.
  - by destruct Hi.
  - intros v Hv. pose proof Hi as ((T1 & _ & T3 & _) & _ & Hl & Hsd).
    split_and!.
    + specialize (Hl v). specialize (Hq v). rewrite T1 in Hl. rewrite T3 in Hq.
      specialize (Hl Hv). assert (v < numOwned h) as Hv' by lia.
      specialize (Hq Hv'). lia.
    + intros n Hw. by apply (quiescent_complete o h Hn He h' Hi Hz Hr Hq v n).
    + apply Hsd. lia.
Qed.

Lemma BFS_single_host_shortest_paths_witness :
  numOwned line3 = size line3 ∧ wf_edges line3 ∧
  ∃ fuel h' k,
    main {| maxIterations := 10000; src_node := 2 |} fuel [line3] = Some ([h'], k) ∧
    dist_old (getData h' 0) = dist_current (getData h' 0).
Proof.
  assert (numOwned line3 = size line3) as Hn by reflexivity.
  split; [exact Hn|]. split; [exact wf_edges_line3|].
  destruct (BFS_single_host_shortest_paths
              {| maxIterations := 10000; src_node := 2 |} line3 Hn wf_edges_line3)
    as (fuel & h' & k & Hm & _ & Hv).
  exists fuel, h', k. split.
  - apply Hm. lia.
  - apply (Hv 0). unfold size; simpl. lia.
Defined.

(** X2.  Termination detection on a host: a pass of the steady operator
    over the masters, started with a reset counter, leaves the counter at
    0 exactly when no master has [dist_old > dist_current]; in that case
    the pass has changed nothing but the counter. *)
Theorem accumulator_zero_iff_quiescent h :
  (DGAccumulator_accum (do_all BFS_operator (accum_reset h)) = 0%Z ↔ quiescent h) ∧
  (quiescent h → do_all BFS_operator (accum_reset h) = accum_reset h).
Proof.
  assert (quiescent h → do_all BFS_operator (accum_reset h) = accum_reset h) as Hquiet.
  { intros Hq. unfold do_all. apply fold_BFS_quiet.
    intros s [_ Hs]%elem_of_seq. apply (Hq s). simpl in Hs. lia. }
  split; [split|exact Hquiet].
  - intros Ha s Hs.
    destruct (fold_BFS_noop (masters (accum_reset h)) (accum_reset h) Ha) as [_ Hq].
    apply (Hq s). apply elem_of_seq. simpl. lia.
  - intros Hq. by rewrite (Hquiet Hq).
Qed.

(** X3.  Neither BFS operator ever raises a [dist_current], whatever the
    values and the arithmetic, and both keep [dist_current] at most
    [dist_old] on every vertex once that holds. *)
Theorem operators_monotone h s :
  (∀ v, v < size h →
     (dist_current (getData (FirstItr_BFS_operator h s) v) ≤ dist_current (getData h v))%Z ∧
     (dist_current (getData (BFS_operator h s) v) ≤ dist_current (getData h v))%Z) ∧
  (le_old h → le_old (FirstItr_BFS_operator h s) ∧ le_old (BFS_operator h s)).
Proof.
  assert (∀ v, v < size h →
    (dist_current (getData (FirstItr_BFS_operator h s) v)
       ≤ dist_current (getData h v))%Z) as Hmono.
  { intros v Hv. unfold FirstItr_BFS_operator. cbn zeta.
    etrans; [apply relax_edges_le; by rewrite size_update_dist_old|].
    destruct (getData_update_dist_old h s v Hv) as [-> _]. lia. }
  assert (le_old h → le_old (FirstItr_BFS_operator h s)) as Hle.
  { intros Hl v Hv. destruct (FirstItr_frame h s) as [(F1 & _) _].
    rewrite F1 in Hv. unfold FirstItr_BFS_operator. cbn zeta.
    destruct (relax_edges_frame (edges (update_dist_old h s) s) (update_dist_old h s) s)
      as (_ & _ & _ & _ & _ & F6 & _).
    rewrite F6 by (by rewrite size_update_dist_old).
    pose proof (relax_edges_le (edges (update_dist_old h s) s) (update_dist_old h s) s v)
      as Hr. rewrite size_update_dist_old in Hr. specialize (Hr Hv).
    destruct (getData_update_dist_old h s v Hv) as [Hc Ho]. rewrite Hc in Hr.
    rewrite Ho. specialize (Hl v Hv). case_decide; subst; lia. }
  split.
  - intros v Hv. split; [by apply Hmono|].
    rewrite BFS_operator_unfold. case_decide; [|lia]. by apply Hmono.
  - intros Hl. split; [by apply Hle|].
    rewrite BFS_operator_unfold. case_decide; [|done]. by apply Hle.
Qed.

(** X4.  [InitializeGraph]'s pass over the masters overwrites both fields
    of every master with 0 when its global id is the source id and with
    the sentinel otherwise, whatever they held; it leaves the data of the
    other local vertices, the topology and the counter as they were. *)
Theorem InitializeGraph_pass o h :
  same_topology h (do_all (InitializeGraph_operator o) h) ∧
  DGAccumulator_accum (do_all (InitializeGraph_operator o) h) = DGAccumulator_accum h ∧
  ∀ v, v < size h →
    getData (do_all (InitializeGraph_operator o) h) v =
      if decide (v < numOwned h)
      then {| dist_current := if decide (getGID h v = src_node o) then 0%Z else infinity;
              dist_old := if decide (getGID h v = src_node o) then 0%Z else infinity |}
      else getData h v.
Proof. apply do_all_InitializeGraph. Qed.

(** X5.  A pass of the steady operator that activates [k] masters lowers
    the sum of the [dist_old] fields by at least [k]: with the counter
    reset at the start, sum plus counter does not exceed the sum before. *)
Theorem pass_progress h :
  numOwned h ≤ size h →
  (sum_old (do_all BFS_operator (accum_reset h))
     + DGAccumulator_accum (do_all BFS_operator (accum_reset h))
   ≤ sum_old h)%Z.
Proof.
  intros Hn. unfold do_all.
  assert (∀ l h1, (∀ s, s ∈ l → s < size h1) →
    (sum_old (fold_left BFS_operator l h1)
       + DGAccumulator_accum (fold_left BFS_operator l h1)
     ≤ sum_old h1 + DGAccumulator_accum h1)%Z) as Hfold.
  { induction l as [|a l IH]; intros h1 Hl; cbn [fold_left]; [lia|].
    assert (a < size h1) as Ha by (apply Hl; by left).
    pose proof (BFS_operator_measure h1 a Ha) as Hstep.
    etrans; [apply IH|exact Hstep].
    intros s Hs.
    assert (size (BFS_operator h1 a) = size h1) as ->.
    { rewrite BFS_operator_unfold. case_decide; [|done].
      destruct (FirstItr_frame h1 a) as [(F1 & _) _]. exact F1. }
    apply Hl. by right. }
  specialize (Hfold (masters (accum_reset h)) (accum_reset h)).
  change (sum_old (accum_reset h)) with (sum_old h) in Hfold.
  change (DGAccumulator_accum (accum_reset h)) with 0%Z in Hfold.
  rewrite Z.add_0_r in Hfold. apply Hfold.
  intros s [_ Hs]%elem_of_seq. simpl in Hs. unfold size in *. simpl. lia.
Qed.

Lemma pass_progress_witness :
  numOwned line3_started ≤ size line3_started ∧
  (sum_old (do_all BFS_operator (accum_reset line3_started))
     + DGAccumulator_accum (do_all BFS_operator (accum_reset line3_started))
   ≤ sum_old line3_started)%Z.
Proof.
  assert (numOwned line3_started ≤ size line3_started) as Hn
    by (unfold size; simpl; lia).
  split; [exact Hn|]. exact (pass_progress line3_started Hn).
Defined.

(** X6.  Both operators tolerate a retry on node data of type
    [unsigned int]: applying the steady operator twice to a vertex gives
    the state of one application, and so does the bootstrap operator when
    the vertex's [dist_current] is below [max()]. *)
Theorem operators_idempotent h s :
  wf_data h → s < size h →
  BFS_operator (BFS_operator h s) s = BFS_operator h s ∧
  ((dist_current (getData h s) < UINT_MAX)%Z →
   FirstItr_BFS_operator (FirstItr_BFS_operator h s) s = FirstItr_BFS_operator h s).
Proof.
  intros Hwf Hs. destruct (Hwf s Hs) as [[Hd0 _] [_ Ho]].
  assert ((dist_current (getData h s) < UINT_MAX)%Z →
    ∀ v, v < size h →
      dist_old (getData (FirstItr_BFS_operator h s) v) =
        (if decide (v = s) then dist_current (getData h s)
         else dist_old (getData h v)) ∧
      dist_current (getData (FirstItr_BFS_operator h s) v) =
        (if decide (v ∈ edges h s)
         then Z.min (dist_current (getData h v)) (dist_current (getData h s) + 1)
         else dist_current (getData h v))) as Hcl.
  { intros Hlt. apply (FirstItr_closed_lt h s Hs). lia. }
  assert ((dist_current (getData h s) < UINT_MAX)%Z →
    dist_current (getData (FirstItr_BFS_operator h s) s) = dist_current (getData h s) ∧
    dist_old (getData (FirstItr_BFS_operator h s) s) = dist_current (getData h s)) as Hs'.
  { intros Hlt. destruct (Hcl Hlt s Hs) as [-> ->].
    split; [case_decide; lia|]. by rewrite (decide_True (P := s = s)). }
  destruct (FirstItr_frame h s) as [(F1 & F2 & F3 & F4) F5].
  split.
  - rewrite (BFS_operator_unfold h s). case_decide as Hg.
    + rewrite BFS_operator_unfold. rewrite decide_False; [done|].
      change (getData (accum_add (FirstItr_BFS_operator h s) 1) s)
        with (getData (FirstItr_BFS_operator h s) s).
      destruct Hs' as [-> ->]; lia.
    + rewrite BFS_operator_unfold. by rewrite decide_False.
  - intros Hlt. destruct (Hs' Hlt) as [Hc1 Ho1].
    destruct (FirstItr_frame (FirstItr_BFS_operator h s) s) as [(G1 & G2 & G3 & G4) G5].
    apply host_ext; try congruence.
    intros v Hv. rewrite G1, F1 in Hv.
    assert (v < size (FirstItr_BFS_operator h s)) as Hv1 by lia.
    assert (s < size (FirstItr_BFS_operator h s)) as Hs1 by lia.
    destruct (FirstItr_closed_lt (FirstItr_BFS_operator h s) s Hs1) with (v := v)
      as [Ho2 Hc2]; [cbn zeta; lia|done|].
    cbn zeta in Ho2, Hc2. rewrite Hc1 in Ho2, Hc2.
    replace (edges (FirstItr_BFS_operator h s) s) with (edges h s) in Hc2
      by (unfold edges; by rewrite F2).
    destruct (Hcl Hlt v Hv) as [Ho3 Hc3].
    destruct (getData (FirstItr_BFS_operator (FirstItr_BFS_operator h s) s) v)
      as [c2 o2] eqn:E2.
    destruct (getData (FirstItr_BFS_operator h s) v) as [c1 o1] eqn:E1.
    simpl in *. f_equal.
    + rewrite Hc2. destruct (decide (v ∈ edges h s)); [|done].
      rewrite Hc3. lia.
    + rewrite Ho2. destruct (decide (v = s)); [|done]. by rewrite Ho3.
Qed.

Lemma operators_idempotent_witness :
  wf_data line3_started ∧ 1 < size line3_started ∧
  BFS_operator (BFS_operator line3_started 1) 1 = BFS_operator line3_started 1.
Proof.
  assert (1 < size line3_started) as H1 by (unfold size; simpl; lia).
  split; [exact wf_data_line3_started|]. split; [exact H1|].
  exact (proj1 (operators_idempotent line3_started 1 wf_data_line3_started H1)).
Defined.

(** X7.  The reduction of [Syncer_0] behaves like a minimum on
    [dist_current]: contributions may arrive in any order and more than
    once, the result is never above the old value nor above the
    contribution, [dist_old] is untouched, and the value extracted from a
    mirror that was just reset is neutral for every value of type
    [unsigned int]. *)
Theorem Syncer_0_reduction l l' node m y z :
  reduce Syncer_0 l (reduce Syncer_0 l node y) z =
    reduce Syncer_0 l (reduce Syncer_0 l node z) y ∧
  reduce Syncer_0 l (reduce Syncer_0 l node y) y = reduce Syncer_0 l node y ∧
  (dist_current (reduce Syncer_0 l node y) ≤ dist_current node)%Z ∧
  (dist_current (reduce Syncer_0 l node y) ≤ y)%Z ∧
  dist_old (reduce Syncer_0 l node y) = dist_old node ∧
  extract Syncer_0 l' (reset Syncer_0 l' m) = UINT_MAX ∧
  ((dist_current node ≤ UINT_MAX)%Z →
   reduce Syncer_0 l node (extract Syncer_0 l' (reset Syncer_0 l' m)) = node).
Proof.
  destruct node as [c o]. unfold Syncer_0, with_dist_current; simpl.
  split_and!; try done; try lia.
  - f_equal. lia.
  - f_equal. lia.
  - intros Hc. f_equal. lia.
Qed.

End Statements.

End BFSMore.

(** ** Further properties of the maximal independent set algorithm *)

Module MISMore.
Import MIS MISFacts.

Section Steps.
Implicit Types (g : Graph) (n v s t u : GNode) (l : list GNode).

Lemma flag_modify g s v :
  v < size g →
  flag (getData (modify g s) v) =
    if decide (v = s) then MATCHED
    else if decide (v ∈ edges g s) then OTHER_MATCHED
    else flag (getData g v).
Proof. intros Hv. rewrite getData_modify by done. by repeat case_decide. Qed.

Lemma edges_modify g s u : edges (modify g s) u = edges g u.
Proof. unfold edges, modify. simpl. by rewrite edgeDst_modify_loop. Qed.

(** The two ways an application of the operator can go. *)
Lemma Process_cases g s :
  (Process g s = g ∧
   (flag (getData g s) ≠ UNMATCHED ∨
    ∃ t, t ∈ edges g s ∧ flag (getData g t) = MATCHED)) ∨
  (Process g s = modify g s ∧
   flag (getData g s) = UNMATCHED ∧
   ∀ t, t ∈ edges g s → flag (getData g t) ≠ MATCHED).
Proof.
  unfold Process. destruct (build g s) eqn:Hb.
  - right. apply build_true in Hb. by split.
  - left. apply build_false in Hb. by split.
Qed.

Lemma size_Process g s : size (Process g s) = size g.
Proof. destruct (Process_cases g s) as [[-> _]|[-> _]]; [done|apply size_modify]. Qed.

Lemma edges_Process g s u : edges (Process g s) u = edges g u.
Proof. destruct (Process_cases g s) as [[-> _]|[-> _]]; [done|apply edges_modify]. Qed.

(** The operator writes only to [UNMATCHED] vertices. *)
Lemma Process_decided g s v :
  v < size g → flag (getData g v) ≠ UNMATCHED →
  getData (Process g s) v = getData g v.
Proof.
  intros Hv Hf. destruct (Process_cases g s) as [[-> _]|(-> & Hs & Hall)]; [done|].
  rewrite getData_modify by done.
  destruct (decide (v = s)) as [->|Hne]; [done|].
  destruct (decide (v ∈ edges g s)) as [Hin|Hin]; [|done].
  specialize (Hall v Hin).
  destruct (getData g v) as [i f p]; simpl in *.
  by destruct f.
Qed.

Lemma Process_inv g s :
  wf_edges g → s < size g → mis_inv g → mis_inv (Process g s).
Proof.
  intros Hwf Hs [Ha Hc].
  destruct (Process_cases g s) as [[-> _]|(-> & Hsf & Hall)]; [done|].
  split.
  - intros v t Hv Hm Ht Hne. rewrite size_modify in Hv. rewrite edges_modify in Ht.
    assert (t < size g) as Htsz by (by apply (Hwf v)).
    rewrite flag_modify in Hm by done. rewrite flag_modify by done.
    repeat case_decide; subst; try done;
      pose proof (Ha _ _ Hv Hm Ht Hne); congruence.
  - intros v Hv Ho. rewrite size_modify in Hv.
    rewrite flag_modify in Ho by done.
    repeat case_decide; subst; try done.
    + exists s. rewrite size_modify, edges_modify, flag_modify by done.
      rewrite decide_True by done. done.
    + destruct (Hc v Hv Ho) as (u & Hu & Hvu & Hne & Hm).
      exists u. rewrite size_modify, edges_modify, flag_modify by done.
      split_and!; try done.
      repeat case_decide; subst; try done; try congruence.
      exfalso. by apply (Hall u).
Qed.

Lemma Process_settled g s :
  wf_edges g → s < size g →
  settled (Process g s) s ∧
  ∀ v, v < size g → settled g v → settled (Process g s) v.
Proof.
  intros Hwf Hs. split.
  - unfold settled. destruct (Process_cases g s) as [[-> H]|(-> & Hsf & Hall)]; [done|].
    left. rewrite flag_modify by done. by rewrite decide_True.
  - intros v Hv [Hf|(t & Ht & Hm)].
    + left. by rewrite Process_decided.
    + right. exists t. rewrite edges_Process. split; [done|].
      rewrite Process_decided; [done|by apply (Hwf v)|congruence].
Qed.

(** **** A schedule: the operator applied to the items of a worklist *)

Lemma fold_Process l : ∀ g (D : GNode → Prop),
  wf_edges g → mis_inv g →
  (∀ s, s ∈ l → s < size g) →
  (∀ v, D v → v < size g → settled g v) →
  size (fold_left Process l g) = size g ∧
  (∀ u, edges (fold_left Process l g) u = edges g u) ∧
  mis_inv (fold_left Process l g) ∧
  (∀ v, D v ∨ v ∈ l → v < size g → settled (fold_left Process l g) v) ∧
  (∀ v, v < size g → flag (getData g v) ≠ UNMATCHED →
     getData (fold_left Process l g) v = getData g v).
Proof.
  induction l as [|a l IH]; intros g D Hwf Hi Hl HD; cbn [fold_left].
  - split_and!; try done. intros v [Hv|Hv] ?; [by apply HD|].
    by apply elem_of_nil in Hv.
  - assert (a < size g) as Ha by (apply Hl; by left).
    destruct (Process_settled g a Hwf Ha) as [Hsa Hsk].
    destruct (IH (Process g a) (λ v, D v ∨ v = a)) as (I1 & I2 & I3 & I4 & I5).
    + intros s t Ht. rewrite edges_Process in Ht. rewrite size_Process.
      by apply (Hwf s).
    + by apply Process_inv.
    + intros s Hs. rewrite size_Process. apply Hl. by right.
    + intros v [Hv| ->] Hsz; [|done]. rewrite size_Process in Hsz. auto.
    + rewrite size_Process in *. split_and!; try done.
      * intros u. by rewrite I2, edges_Process.
      * intros v [Hv|[->|Hv]%elem_of_cons] Hsz; apply I4; auto.
      * intros v Hv Hf. rewrite I5; [by apply Process_decided|done|].
        by rewrite Process_decided.
Qed.

Lemma all_unmatched_inv g : all_unmatched g → mis_inv g.
Proof.
  intros Hu. split.
  - intros v t Hv Hm. rewrite Hu in Hm by done. done.
  - intros v Hv Ho. rewrite Hu in Ho by done. done.
Qed.

(** What a schedule that visits every vertex leaves behind. *)
Lemma schedule_result g l :
  wf_edges g → all_unmatched g →
  (∀ s, s ∈ l → s < size g) → (∀ v, v < size g → v ∈ l) →
  let g' := fold_left Process l g in
  size g' = size g ∧ (∀ u, edges g' u = edges g u) ∧ mis_inv g' ∧
  ∀ v, v < size g → settled g' v.
Proof.
  intros Hwf Hu Hl Hc g'.
  destruct (fold_Process l g (λ _, False) Hwf (all_unmatched_inv g Hu) Hl)
    as (I1 & I2 & I3 & I4 & _); [done|].
  split_and!; try done. intros v Hv. apply I4; [|done]. right. by apply Hc.
Qed.

End Steps.

Section Statements.
Implicit Types (g : Graph) (n v s t u : GNode) (l : list GNode).

(** Facts about the path [path5], vertex by vertex. *)
Ltac by_edges s t Ht :=
  unfold edges in Ht; simpl in Ht;
  do 5 (destruct s as [|s];
        [simpl in Ht;
         repeat (apply elem_of_cons in Ht as [->|Ht]);
         try (by apply elem_of_nil in Ht); compute_done|]);
  by apply elem_of_nil in Ht.

Lemma wf_edges_path5 : wf_edges path5.
Proof. intros s t Ht. by_edges s t Ht. Qed.

Lemma symmetric_path5 : symmetric path5.
Proof. intros u v Ht. by_edges u v Ht. Qed.

Lemma all_unmatched_path5 : all_unmatched path5.
Proof.
  intros v Hv. unfold size in Hv; simpl in Hv.
  do 5 (destruct v as [|v]; [reflexivity|]). lia.
Qed.

Lemma all_nodes_in_range g s : s ∈ all_nodes g ↔ s < size g.
Proof. unfold all_nodes. rewrite elem_of_seq. lia. Qed.

Lemma graph_ext g1 g2 :
  size g1 = size g2 → edgeDst g1 = edgeDst g2 →
  (∀ v, v < size g1 → getData g1 v = getData g2 v) →
  g1 = g2.
Proof.
  destruct g1 as [n1 e1], g2 as [n2 e2].
  unfold size, getData; simpl. intros Hsz -> Hd. f_equal.
  apply list_eq. intros i. destruct (decide (i < length n1)) as [Hi|Hi].
  - rewrite !list_lookup_lookup_total_lt by lia. f_equal. by apply Hd.
  - rewrite !lookup_ge_None_2 by lia. done.
Qed.

Lemma edgeDst_modify g s : edgeDst (modify g s) = edgeDst g.
Proof. unfold modify, set_flag; simpl. apply edgeDst_modify_loop. Qed.

(** [modify] writes constants, so running it again on the same vertex
    changes nothing. *)
Lemma modify_idem g s : s < size g → modify (modify g s) s = modify g s.
Proof.
  intros Hs. apply graph_ext.
  - by rewrite !size_modify.
  - by rewrite !edgeDst_modify.
  - intros v Hv. rewrite !size_modify in Hv.
    rewrite (getData_modify (modify g s)) by (by rewrite size_modify).
    rewrite edges_modify, getData_modify by done.
    by repeat case_decide.
Qed.

(** The only vertex the operator can make [MATCHED] is the one it is
    applied to, and only when [build] succeeds. *)
Lemma Process_matched g s v :
  v < size g →
  flag (getData (Process g s) v) = MATCHED ↔
  flag (getData g v) = MATCHED ∨ (v = s ∧ build g s = true).
Proof.
  intros Hv. unfold Process. destruct (build g s) eqn:Hb.
  - apply build_true in Hb as [Hs Hall]. rewrite flag_modify by done.
    repeat case_decide; subst; split; try done; try tauto.
    intros [Hm|[? _]]; [|done]. exfalso. by apply (Hall v).
  - split; [by left|]. by intros [?|[_ ?]].
Qed.

Lemma count_ext (P Q : nat → Prop) `{∀ x, Decision (P x)} `{∀ x, Decision (Q x)}
    (l : list nat) :
  (∀ x, x ∈ l → P x ↔ Q x) →
  length (filter P l) = length (filter Q l).
Proof.
  induction l as [|a l IH]; intros Hpq; [done|].
  rewrite !filter_cons.
  assert (P a ↔ Q a) as Ha by (apply Hpq; left).
  assert (length (filter P l) = length (filter Q l)) as Hl.
  { apply IH. intros x Hx. apply Hpq. by right. }
  repeat case_decide; simpl; try tauto; by rewrite Hl.
Qed.

(** The state after the first [k] steps of [SerialAlgo]: no vertex from
    [k] on is [MATCHED] yet, and the vertices before [k] are [MATCHED]
    exactly when no earlier [MATCHED] vertex is joined to them. *)
Lemma SerialAlgo_prefix g k :
  wf_edges g → all_unmatched g → k ≤ size g →
  size (fold_left Process (seq 0 k) g) = size g ∧
  (∀ u, edges (fold_left Process (seq 0 k) g) u = edges g u) ∧
  mis_inv (fold_left Process (seq 0 k) g) ∧
  (∀ v, k ≤ v → v < size g →
     flag (getData (fold_left Process (seq 0 k) g) v) ≠ MATCHED) ∧
  (∀ v, v < k →
     flag (getData (fold_left Process (seq 0 k) g) v) = MATCHED ↔
     ¬ ∃ u, u < v ∧
            flag (getData (fold_left Process (seq 0 k) g) u) = MATCHED ∧
            (v ∈ edges g u ∨ u ∈ edges g v)).
Proof.
  intros Hwf Hu. induction k as [|k IH]; intros Hk.
  - simpl. split_and!; try done.
    + by apply all_unmatched_inv.
    + intros v _ Hv. by rewrite Hu.
    + intros v Hv. lia.
  - destruct IH as (I1 & I2 & I3 & I4 & I5); [lia|].
    rewrite seq_S, fold_left_app. cbn [fold_left Nat.add].
    unfold GNode in *.
    remember (@fold_left Graph nat Process (seq 0 k) g) as gk eqn:Egk. clear Egk.
    assert (wf_edges gk) as Hwfk.
    { intros a b. rewrite I2, I1. apply Hwf. }
    assert (k < size gk) as Hkk by (rewrite I1; lia).
    assert (∀ v, v < size g → v ≠ k →
              flag (getData (Process gk k) v) = MATCHED ↔
              flag (getData gk v) = MATCHED) as Hsame.
    { intros v Hv Hne. rewrite Process_matched by (by rewrite I1). tauto. }
    split_and!.
    + by rewrite size_Process.
    + intros u. by rewrite edges_Process.
    + by apply Process_inv.
    + intros v Hkv Hv. rewrite Hsame by (done || lia). apply I4; [lia|done].
    + intros v Hv. destruct (decide (v = k)) as [->|Hne].
      * rewrite Process_matched by done.
        assert (flag (getData gk k) ≠ MATCHED) as Hnk by (apply I4; lia).
        split.
        -- intros [?|[_ Hb]]; [done|]. apply build_true in Hb as [Hs Hall].
           intros (u & Huk & Hm & Hor). rewrite Hsame in Hm by lia.
           destruct Hor as [Hin|Hin].
           ++ destruct I3 as [Ha _].
              rewrite (Ha u k) in Hs; [done|rewrite I1; lia|done|by rewrite I2|lia].
           ++ apply (Hall u); [by rewrite I2|done].
        -- intros Hno. right. split; [done|]. apply build_true. split.
           ++ destruct (flag (getData gk k)) eqn:Hf; [done| |done].
              destruct I3 as [_ Hc].
              destruct (Hc k Hkk Hf) as (u & Hus & Hin & Hne & Hm).
              exfalso. apply Hno. exists u.
              assert (u < k).
              { destruct (decide (u < k)); [done|].
                exfalso. apply (I4 u); [lia|by rewrite <-I1|done]. }
              split_and!; [done| |left; by rewrite <-I2].
              rewrite Hsame; [done|lia|lia].
           ++ intros t Ht Hm. apply Hno. exists t.
              assert (t < size g) as Hts by (rewrite <-I1; by apply (Hwfk k)).
              assert (t < k).
              { destruct (decide (t < k)); [done|].
                exfalso. apply (I4 t); [lia|done|done]. }
              split_and!; [done| |right; by rewrite <-I2].
              rewrite Hsame; [done|lia|lia].
      * rewrite Hsame by lia. rewrite I5 by lia.
        split; intros Hno (u & Huv & Hm & Hor); apply Hno; exists u.
        -- rewrite Hsame in Hm by lia. done.
        -- rewrite Hsame by lia. done.
Qed.

(** X8.  The operator writes only to [UNMATCHED] vertices: once a vertex
    is [MATCHED] or [OTHER_MATCHED], no sequence of applications of the
    serial operator, to whatever vertices, changes its node data. *)
Theorem decided_is_final g l v :
  v < size g → flag (getData g v) ≠ UNMATCHED →
  getData (fold_left Process l g) v = getData g v.
Proof.
  revert g. induction l as [|a l IH]; intros g Hv Hf; cbn [fold_left]; [done|].
  rewrite IH.
  - by apply Process_decided.
  - by rewrite size_Process.
  - by rewrite Process_decided.
Qed.

Lemma decided_is_final_witness :
  1 < size (Process path5 0) ∧
  getData (fold_left Process [1; 2; 3; 4] (Process path5 0)) 1 =
    getData (Process path5 0) 1.
Proof.
  assert (1 < size (Process path5 0)) as H1 by (vm_compute; lia).
  split; [exact H1|].
  apply (decided_is_final (Process path5 0) [1; 2; 3; 4] 1 H1). by vm_compute.
Defined.

(** X9.  Started with every vertex [UNMATCHED] on a graph whose edges end
    at its vertices, any schedule that applies the serial operator to
    vertices of the graph and reaches each of them at least once, in any
    order and with repetitions, ends in a state that [verify()] accepts;
    [SerialAlgo] is the ascending schedule. *)
Theorem schedule_verified g :
  wf_edges g → all_unmatched g →
  (∀ l, (∀ s, s ∈ l → s < size g) → (∀ v, v < size g → v ∈ l) →
        verify (fold_left Process l g) = true) ∧
  verify (SerialAlgo g) = true.
Proof.
  intros Hwf Hu.
  assert (∀ l, (∀ s, s ∈ l → s < size g) → (∀ v, v < size g → v ∈ l) →
               verify (fold_left Process l g) = true) as Hany.
  { intros l Hl Hc.
    destruct (schedule_result g l Hwf Hu Hl Hc) as (I1 & I2 & [Ha _] & I4).
    cbn zeta in *. apply verify_true. intros v Hv. rewrite I1 in Hv.
    apply is_bad_false. split.
    - intros Hm t Ht Hne. rewrite I2 in Ht.
      rewrite (Ha v t); try done; [by rewrite I1|by rewrite I2].
    - intros Hf. destruct (I4 v Hv) as [Hn|(t & Ht & Hm)]; [done|].
      exists t. split; [done|congruence]. }
  split; [exact Hany|].
  unfold SerialAlgo. apply Hany; intros s; by rewrite all_nodes_in_range.
Qed.

Lemma schedule_verified_witness :
  wf_edges path5 ∧ all_unmatched path5 ∧ verify (SerialAlgo path5) = true.
Proof.
  split; [exact wf_edges_path5|]. split; [exact all_unmatched_path5|].
  exact (proj2 (schedule_verified path5 wf_edges_path5 all_unmatched_path5)).
Defined.

(** X10.  On a graph that stores every edge in both directions, such a
    schedule computes a maximal independent set: no vertex is left
    [UNMATCHED], the other neighbours of a [MATCHED] vertex are all
    [OTHER_MATCHED], and every [OTHER_MATCHED] vertex has a [MATCHED]
    neighbour. *)
Theorem schedule_maximal_independent g l :
  wf_edges g → all_unmatched g → symmetric g →
  (∀ s, s ∈ l → s < size g) → (∀ v, v < size g → v ∈ l) →
  ∀ v, v < size g →
    flag (getData (fold_left Process l g) v) ≠ UNMATCHED ∧
    (flag (getData (fold_left Process l g) v) = MATCHED →
     ∀ t, t ∈ edges g v → t ≠ v →
       flag (getData (fold_left Process l g) t) = OTHER_MATCHED) ∧
    (flag (getData (fold_left Process l g) v) = OTHER_MATCHED →
     ∃ u, u ∈ edges g v ∧ u ≠ v ∧
          flag (getData (fold_left Process l g) u) = MATCHED).
Proof.
  intros Hwf Hu Hsym Hl Hc v Hv.
  destruct (schedule_result g l Hwf Hu Hl Hc) as (I1 & I2 & [Ha Hcc] & I4).
  cbn zeta in *. split_and!.
  - intros Hf. destruct (I4 v Hv) as [Hn|(t & Ht & Hm)]; [done|].
    rewrite I2 in Ht.
    assert (t < size g) as Htsz by (by apply (Hwf v)).
    assert (v ≠ t) as Hne by (intros ->; congruence).
    assert (flag (getData (fold_left Process l g) v) = OTHER_MATCHED) as Ho.
    { apply (Ha t v); try done; [by rewrite I1|]. rewrite I2. by apply Hsym. }
    congruence.
  - intros Hm t Ht Hne. apply (Ha v t); try done; [by rewrite I1|by rewrite I2].
  - intros Ho. destruct (Hcc v) as (u & Hu' & Hvu & Hne & Hm); [by rewrite I1|done|].
    exists u. rewrite I2 in Hvu. split_and!; [by apply Hsym|done|done].
Qed.

Lemma schedule_maximal_independent_witness :
  wf_edges path5 ∧ all_unmatched path5 ∧ symmetric path5 ∧
  flag (getData (fold_left Process [4; 3; 2; 1; 0] path5) 2) ≠ UNMATCHED.
Proof.
  split; [exact wf_edges_path5|]. split; [exact all_unmatched_path5|].
  split; [exact symmetric_path5|].
  refine (proj1 (schedule_maximal_independent path5 [4; 3; 2; 1; 0]
                   wf_edges_path5 all_unmatched_path5 symmetric_path5 _ _ 2 _)).
  - intros s Hs. unfold size; simpl.
    repeat (apply elem_of_cons in Hs as [->|Hs]); try lia.
    by apply elem_of_nil in Hs.
  - intros v Hv. unfold size in Hv; simpl in Hv.
    do 5 (destruct v as [|v]; [compute_done|]). lia.
  - unfold size; simpl. lia.
Defined.

(** X11.  An application of the serial operator to a vertex of the graph
    raises the cardinality that [main] prints, the number of vertices
    [is_matched] accepts, by exactly one when [build] succeeds and leaves
    it as it was otherwise. *)
Theorem Process_cardinality g s :
  s < size g →
  cardinality (Process g s) =
    cardinality g + (if build g s then 1 else 0).
Proof.
  intros Hs. unfold Process. destruct (build g s) eqn:Hb; [|lia].
  pose proof Hb as Hb'. apply build_true in Hb' as [Hsf Hall].
  unfold cardinality, all_nodes. rewrite size_modify.
  assert (∀ v, v < size g → v ≠ s →
            is_matched (modify g s) v = true ↔ is_matched g v = true) as Hsame.
  { intros v Hv Hne. unfold is_matched. rewrite !bool_decide_eq_true.
    pose proof (Process_matched g s v Hv) as Hpm. unfold Process in Hpm.
    rewrite Hb in Hpm. rewrite Hpm. tauto. }
  assert (seq 0 (size g) = seq 0 s ++ [s] ++ seq (s + 1) (size g - s - 1)) as ->.
  { replace (size g) with (s + (1 + (size g - s - 1))) at 1 by lia.
    rewrite !seq_app. simpl. do 3 f_equal. }
  rewrite !filter_app, !length_app.
  rewrite (count_ext (λ n, is_matched (modify g s) n = true)
                     (λ n, is_matched g n = true) (seq 0 s)).
  2:{ intros x Hx. apply elem_of_seq in Hx. apply Hsame; lia. }
  rewrite (count_ext (λ n, is_matched (modify g s) n = true)
                     (λ n, is_matched g n = true) (seq (s + 1) _)).
  2:{ intros x Hx. apply elem_of_seq in Hx. apply Hsame; lia. }
  rewrite !filter_cons, !filter_nil.
  rewrite decide_True.
  2:{ unfold is_matched. rewrite bool_decide_eq_true, flag_modify by done.
      by rewrite decide_True. }
  rewrite decide_False.
  2:{ unfold is_matched. rewrite bool_decide_eq_true. congruence. }
  cbn [length]. unfold GNode in *.
  set (a := length (filter _ (seq 0 s))).
  set (b := length (filter _ (seq (s + 1) _))).
  lia.
Qed.

Lemma Process_cardinality_witness :
  2 < size path5 ∧
  cardinality (Process path5 2) =
    cardinality path5 + (if build path5 2 then 1 else 0).
Proof.
  assert (2 < size path5) as H2 by (vm_compute; lia).
  split; [exact H2|]. exact (Process_cardinality path5 2 H2).
Defined.

(** X12.  [SerialAlgo] computes the greedy set of the vertex order:
    started with every vertex [UNMATCHED] on a graph whose edges end at
    its vertices, a vertex ends [MATCHED] exactly when no vertex before it
    in the iteration order that ends [MATCHED] is joined to it by an edge
    in either direction.  This fixes the result of the serial algorithm
    completely. *)
Theorem SerialAlgo_greedy g :
  wf_edges g → all_unmatched g →
  ∀ v, v < size g →
    flag (getData (SerialAlgo g) v) = MATCHED ↔
    ¬ ∃ u, u < v ∧ flag (getData (SerialAlgo g) u) = MATCHED ∧
           (v ∈ edges g u ∨ u ∈ edges g v).
Proof.
  intros Hwf Hu v Hv. unfold SerialAlgo, all_nodes.
  destruct (SerialAlgo_prefix g (size g) Hwf Hu) as (_ & _ & _ & _ & I5); [done|].
  by apply I5.
Qed.

Lemma SerialAlgo_greedy_witness :
  wf_edges path5 ∧ all_unmatched path5 ∧
  (flag (getData (SerialAlgo path5) 2) = MATCHED ↔
   ¬ ∃ u, u < 2 ∧ flag (getData (SerialAlgo path5) u) = MATCHED ∧
          (2 ∈ edges path5 u ∨ u ∈ edges path5 2)).
Proof.
  split; [exact wf_edges_path5|]. split; [exact all_unmatched_path5|].
  apply (SerialAlgo_greedy path5 wf_edges_path5 all_unmatched_path5 2).
  vm_compute; lia.
Defined.

(** X13.  The operator handed to the parallel executor, in an iteration
    that is not aborted: with [Version] [nondet] or [detBase] it does what
    the serial operator does and leaves the local-state slot alone; the
    [detPrefix] version never writes to the graph; without
    [GALOIS_USE_DET] the [detDisjoint] version does nothing at all; with
    it, the first invocation for an item leaves the graph unchanged and
    saves the outcome of [build], and the replay with the saved state
    yields the state of the serial operator, as does every further
    replay. *)
Theorem Process_ctx_variants use_det g s slot :
  Process_ctx use_det nondet g s slot = (Process g s, slot) ∧
  Process_ctx use_det detBase g s slot = (Process g s, slot) ∧
  Process_ctx use_det detPrefix g s slot = (g, slot) ∧
  Process_ctx false detDisjoint g s slot = (g, slot) ∧
  Process_ctx true detDisjoint g s None = (g, Some (mkLocalState (build g s))) ∧
  Process_ctx true detDisjoint g s (Some (mkLocalState (build g s))) =
    (Process g s, Some (mkLocalState (build g s))) ∧
  (s < size g →
   Process_ctx true detDisjoint (Process g s) s (Some (mkLocalState (build g s))) =
     (Process g s, Some (mkLocalState (build g s)))).
Proof.
  unfold Process_ctx, Process. destruct use_det; simpl; split_and!; try done.
  all: intros Hs; destruct (build g s) eqn:Hb; simpl; [|done].
  all: f_equal; by apply modify_idem.
Qed.

Lemma Process_ctx_variants_witness :
  0 < size path5 ∧
  Process_ctx true detDisjoint (Process path5 0) 0
    (Some (mkLocalState (build path5 0))) =
  (Process path5 0, Some (mkLocalState (build path5 0))).
Proof.
  assert (0 < size path5) as H0 by (vm_compute; lia).
  split; [exact H0|].
  exact (proj2 (proj2 (proj2 (proj2 (proj2 (proj2
           (Process_ctx_variants true path5 0 None)))))) H0).
Defined.

End Statements.

End MISMore.
